(** * The prediction / value-bet reconciliation core of [PredictionsView]

    A shallow embedding of the handlers of [src/pages/PredictionsView.tsx]:
    the two [useState] stores ([savedPredictions], [valueBets]), the three
    handlers that mutate them ([handleSavePrediction], [handleSaveValueBet],
    [handleUpdateValueBet]) and the adapter [generateAdvancedPrediction].

    JavaScript strings are [string], arrays are [list] (read with stdpp's
    [!!], written by index with [<[i:=x]>]), numbers are binary64 floats
    ([float]) except where the source only ever writes the literal [0],
    and an optional property is an [option].

    A handler is a closure of the render that made it: the [savedPredictions]
    it names is the value of that render, while the argument [prev] of an
    updater is the state as the earlier updaters left it. The two differ
    when handlers are called one after the other before the view renders
    again, so the state keeps both. *)

From Stdlib Require Import PrimFloat.
From stdpp Require Import base list strings.

Set Warnings "-register-all".

(** ** Data model *)

(** A JavaScript value the core only passes through: the properties of a bet
    or of a pattern it never reads, and the model's winner signal, which may
    be any value at all. *)
Inductive JsValue : Type :=
  | JsUndefined
  | JsNull
  | JsBool (b : bool)
  | JsNumber (x : float)
  | JsString (s : string)
  | JsArray (items : list JsValue)
  | JsObject (props : list (string * JsValue)).

(** [v === s] for a string [s]: strict equality never coerces, so only a
    string value can be equal to a string. *)
Definition strictEqString (v : JsValue) (s : string) : bool :=
  match v with
  | JsString t => String.eqb t s
  | _ => false
  end.

(** [!s] for a string: the empty string is the only falsy one. *)
Definition falsy (s : string) : bool :=
  match s with
  | EmptyString => true
  | String _ _ => false
  end.

Module Pattern.
(** Modelled from the spec: the pattern type of [@/types] is not in the
    source. The handlers read its [type] discriminator only; [rest] holds
    the other properties. *)
Record t : Type := mk {
  type : string;
  rest : list (string * JsValue)
}.
End Pattern.

Module Match.
(** Modelled from the spec: the match type of [@/types] is not in the
    source. The fields are those the adapter writes (lines 122-130) and the
    optional [id] that [handleSaveValueBet] reads (line 69). *)
Record t : Type := mk {
  id : option string;
  date : string;
  home_team : string;
  away_team : string;
  home_score : Z;
  away_score : Z;
  ht_home_score : Z;
  ht_away_score : Z
}.
End Match.

Module ValueBet.
(** Modelled from the spec: the [ValueBet] type of [@/types] is not in the
    source. The handlers read [matchId] and [pattern.type]; [rest] holds the
    bookmaker and odds properties. *)
Record t : Type := mk {
  matchId : string;
  pattern : Pattern.t;
  rest : list (string * JsValue)
}.
End ValueBet.

Inductive PredictedResult : Type := home_win | draw | away_win.

Module Score.
Record t : Type := mk { home : float; away : float }.
End Score.

Module HeadToHead.
Record t : Type := mk {
  homeTeam : string;
  awayTeam : string;
  totalMatches : Z;
  homeWins : Z;
  draws : Z;
  awayWins : Z;
  homeGoals : Z;
  awayGoals : Z;
  bothTeamsScored : Z;
  avgTotalGoals : float;
  htftReversals : Z
}.
End HeadToHead.

Module MatchPrediction.
(** The record built at lines 139-162; [valueBets] is the optional property
    the bet handlers read and write. [match] is a keyword, hence [match_]. *)
Record t : Type := mk {
  match_ : Match.t;
  predictedResult : PredictedResult;
  confidenceLevel : float;
  predictedScore : Score.t;
  patterns : list Pattern.t;
  valueBets : option (list ValueBet.t);
  htftAnalysis : list JsValue;
  headToHead : HeadToHead.t
}.

(** [{...prediction, valueBets: v}] *)
Definition withValueBets (prediction : t) (v : list ValueBet.t) : t :=
  {| match_ := match_ prediction;
     predictedResult := predictedResult prediction;
     confidenceLevel := confidenceLevel prediction;
     predictedScore := predictedScore prediction;
     patterns := patterns prediction;
     valueBets := Some v;
     htftAnalysis := htftAnalysis prediction;
     headToHead := headToHead prediction |}.

(** [prediction.valueBets || []]: an array, even an empty one, is truthy. *)
Definition embedded (prediction : t) : list ValueBet.t :=
  default [] (valueBets prediction).
End MatchPrediction.

Module Poisson.
Record t : Type := mk { homeGoals : float; awayGoals : float }.
End Poisson.

Module ModelPredictions.
Record t : Type := mk { poisson : Poisson.t }.
End ModelPredictions.

Module AdvancedPrediction.
(** Modelled from the spec: the result type of [runPrediction]
    ([@/utils/predictionEngine]) is not in the source. These are the
    properties the adapter reads; [predictedWinner] may be any value. *)
Record t : Type := mk {
  predictedWinner : JsValue;
  confidence : float;
  modelPredictions : ModelPredictions.t;
  patterns : list Pattern.t;
  homeExpectedGoals : float;
  awayExpectedGoals : float
}.
End AdvancedPrediction.

(** ** The view's state *)

(** The two [useState] cells of lines 27-28 as the updaters see them
    ([prev]), the notifications sent through [toast.success] so far, and
    [renderedPredictions], the value the constant [savedPredictions] of
    line 27 had at the last render, which is what the handlers of that
    render read when they name [savedPredictions]. *)
Record View : Type := mkView {
  savedPredictions : list MatchPrediction.t;
  valueBets : list ValueBet.t;
  toasts : list string;
  renderedPredictions : list MatchPrediction.t
}.

Definition initial : View :=
  {| savedPredictions := []; valueBets := []; toasts := [];
     renderedPredictions := [] |}.

(** [Array.prototype.findIndex]; [None] stands for [-1]. *)
Fixpoint findIndex {A : Type} (f : A → bool) (l : list A) : option nat :=
  match l with
  | [] => None
  | x :: l' => if f x then Some 0 else S <$> findIndex f l'
  end.

(** ** [handleSavePrediction] (lines 39-58) *)

(** The callback of [findIndex], lines 43-44. *)
Definition sameFixture (prediction p : MatchPrediction.t) : bool :=
  String.eqb (Match.home_team (MatchPrediction.match_ p))
             (Match.home_team (MatchPrediction.match_ prediction))
  && String.eqb (Match.away_team (MatchPrediction.match_ p))
                (Match.away_team (MatchPrediction.match_ prediction)).

Definition handleSavePrediction (prediction : MatchPrediction.t) (s : View) : View :=
  let prev := savedPredictions s in
  match findIndex (sameFixture prediction) prev with
  | Some existingIndex =>
      {| savedPredictions := <[existingIndex := prediction]> prev;
         valueBets := valueBets s;
         toasts := toasts s;
         renderedPredictions := renderedPredictions s |}
  | None =>
      {| savedPredictions := prev ++ [prediction];
         valueBets := valueBets s;
         toasts := toasts s ++ ["Prediction saved successfully!"];
         renderedPredictions := renderedPredictions s |}
  end.

(** ** [handleSaveValueBet] (lines 61-80) *)

(** The template literal of line 70. *)
Definition fallbackKey (m : Match.t) : string :=
  Match.home_team m +:+ "-" +:+ Match.away_team m +:+ "-" +:+ Match.date m.

(** [prediction.match.id === bet.matchId]: an absent id is [undefined],
    which is equal to no string. *)
Definition idEquals (m : Match.t) (matchId : string) : bool :=
  match Match.id m with
  | Some i => String.eqb i matchId
  | None => false
  end.

(** The condition of lines 69-70. *)
Definition resolves (prediction : MatchPrediction.t) (bet : ValueBet.t) : bool :=
  idEquals (MatchPrediction.match_ prediction) (ValueBet.matchId bet)
  || String.eqb (fallbackKey (MatchPrediction.match_ prediction)) (ValueBet.matchId bet).

(** The callback of [prev.map], lines 67-77. *)
Definition attach (bet : ValueBet.t) (prediction : MatchPrediction.t) : MatchPrediction.t :=
  if resolves prediction bet
  then MatchPrediction.withValueBets prediction (MatchPrediction.embedded prediction ++ [bet])
  else prediction.

(** The guard of line 65 reads the [savedPredictions] of the render, the
    updater of line 66 maps the state it is given. *)
Definition handleSaveValueBet (bet : ValueBet.t) (s : View) : View :=
  {| savedPredictions :=
       if 0 <? length (renderedPredictions s)
       then attach bet <$> savedPredictions s
       else savedPredictions s;
     valueBets := valueBets s ++ [bet];
     toasts := toasts s;
     renderedPredictions := renderedPredictions s |}.

(** ** [handleUpdateValueBet] (lines 83-112) *)

(** [bet.matchId === updatedBet.matchId && bet.pattern.type === updatedBet.pattern.type] *)
Definition sameKey (updatedBet bet : ValueBet.t) : bool :=
  String.eqb (ValueBet.matchId bet) (ValueBet.matchId updatedBet)
  && String.eqb (Pattern.type (ValueBet.pattern bet))
                (Pattern.type (ValueBet.pattern updatedBet)).

(** The callback of both [map]s, lines 86-87 and 104-105. *)
Definition replaceBet (updatedBet bet : ValueBet.t) : ValueBet.t :=
  if sameKey updatedBet bet then updatedBet else bet.

(** The callback of [prev.map], lines 92-110. *)
Definition reattach (updatedBet : ValueBet.t) (prediction : MatchPrediction.t) : MatchPrediction.t :=
  match MatchPrediction.valueBets prediction with
  | None => prediction
  | Some bets =>
      if existsb (sameKey updatedBet) bets
      then MatchPrediction.withValueBets prediction (replaceBet updatedBet <$> bets)
      else prediction
  end.

Definition handleUpdateValueBet (updatedBet : ValueBet.t) (s : View) : View :=
  {| savedPredictions := reattach updatedBet <$> savedPredictions s;
     valueBets := replaceBet updatedBet <$> valueBets s;
     toasts := toasts s;
     renderedPredictions := renderedPredictions s |}.

(** ** [generateAdvancedPrediction] (lines 115-165) *)

Section Adapter.
(** The collaborators of the adapter: the prediction engine, the matches of
    the selected league, and [new Date().toISOString()] at the call. *)
Variable runPrediction : string → string → list Match.t → AdvancedPrediction.t.
Variable currentMatches : list Match.t.
Variable now : string.

Definition generateAdvancedPrediction (homeTeam awayTeam : string) : option MatchPrediction.t :=
  if falsy homeTeam || falsy awayTeam then None else
  let advancedPrediction := runPrediction homeTeam awayTeam currentMatches in
  let match_ :=
    {| Match.id := None;
       Match.date := now;
       Match.home_team := homeTeam;
       Match.away_team := awayTeam;
       Match.home_score := 0;
       Match.away_score := 0;
       Match.ht_home_score := 0;
       Match.ht_away_score := 0 |} in
  let predictedResult :=
    if strictEqString (AdvancedPrediction.predictedWinner advancedPrediction) "home" then home_win
    else if strictEqString (AdvancedPrediction.predictedWinner advancedPrediction) "away" then away_win
    else draw in
  Some
    {| MatchPrediction.match_ := match_;
       MatchPrediction.predictedResult := predictedResult;
       MatchPrediction.confidenceLevel := AdvancedPrediction.confidence advancedPrediction;
       MatchPrediction.predictedScore :=
         {| Score.home :=
              Poisson.homeGoals (ModelPredictions.poisson
                (AdvancedPrediction.modelPredictions advancedPrediction));
            Score.away :=
              Poisson.awayGoals (ModelPredictions.poisson
                (AdvancedPrediction.modelPredictions advancedPrediction)) |};
       MatchPrediction.patterns := AdvancedPrediction.patterns advancedPrediction;
       MatchPrediction.valueBets := None;
       MatchPrediction.htftAnalysis := [];
       MatchPrediction.headToHead :=
         {| HeadToHead.homeTeam := homeTeam;
            HeadToHead.awayTeam := awayTeam;
            HeadToHead.totalMatches := 0;
            HeadToHead.homeWins := 0;
            HeadToHead.draws := 0;
            HeadToHead.awayWins := 0;
            HeadToHead.homeGoals := 0;
            HeadToHead.awayGoals := 0;
            HeadToHead.bothTeamsScored := 0;
            HeadToHead.avgTotalGoals :=
              PrimFloat.add (AdvancedPrediction.homeExpectedGoals advancedPrediction)
                            (AdvancedPrediction.awayExpectedGoals advancedPrediction);
            HeadToHead.htftReversals := 0 |} |}.
End Adapter.

(** ** The active prediction (lines 168-174) *)

(** [getActivePrediction]: the last record, [null] for an empty store. *)
Definition getActivePrediction (s : View) : option MatchPrediction.t :=
  if length (savedPredictions s) =? 0 then None
  else savedPredictions s !! (length (savedPredictions s) - 1).

(** [activePrediction?.valueBets || []] *)
Definition activePredictionBets (s : View) : list ValueBet.t :=
  match getActivePrediction s with
  | Some activePrediction => MatchPrediction.embedded activePrediction
  | None => []
  end.

(** ** Events *)

(** The view renders again: the handlers it hands to its children from now
    on close over the current [savedPredictions]. *)
Definition render (s : View) : View :=
  {| savedPredictions := savedPredictions s;
     valueBets := valueBets s;
     toasts := toasts s;
     renderedPredictions := savedPredictions s |}.

(** What the child components can ask of the view: [onSavePrediction],
    [onSaveBet] and [onUpdateBet] (lines 233, 250, 251), each call running
    to completion before the next one; and [Render], the view rendering
    again. Calls with no [Render] between them are calls of one batch, made
    through the handlers of one render. *)
Inductive Event : Type :=
  | SavePrediction (prediction : MatchPrediction.t)
  | SaveValueBet (bet : ValueBet.t)
  | UpdateValueBet (updatedBet : ValueBet.t)
  | Render.

Definition step (s : View) (e : Event) : View :=
  match e with
  | SavePrediction prediction => handleSavePrediction prediction s
  | SaveValueBet bet => handleSaveValueBet bet s
  | UpdateValueBet updatedBet => handleUpdateValueBet updatedBet s
  | Render => render s
  end.

Definition run (s : View) (events : list Event) : View :=
  foldl step s events.

(** ** Vocabulary of the properties *)

(** The pair a prediction is saved under. *)
Definition fixture (p : MatchPrediction.t) : string * string :=
  (Match.home_team (MatchPrediction.match_ p), Match.away_team (MatchPrediction.match_ p)).

(** The pair a bet is updated under. *)
Definition betKey (b : ValueBet.t) : string * string :=
  (ValueBet.matchId b, Pattern.type (ValueBet.pattern b)).

(** How many bets of [l] have the key of [b]. *)
Definition countKey (b : ValueBet.t) (l : list ValueBet.t) : nat :=
  length (List.filter (sameKey b) l).

(** The bets of the [SaveValueBet] events of a trace, in order. *)
Fixpoint addedBets (events : list Event) : list ValueBet.t :=
  match events with
  | [] => []
  | SaveValueBet bet :: events' => bet :: addedBets events'
  | _ :: events' => addedBets events'
  end.

Definition isUpdate (e : Event) : bool :=
  match e with
  | UpdateValueBet _ => true
  | _ => false
  end.

(** Whether the event saves a prediction for the fixture of [p]. *)
Definition savesFixtureOf (p : MatchPrediction.t) (e : Event) : bool :=
  match e with
  | SavePrediction q => sameFixture p q
  | _ => false
  end.

(** Two predictions that differ in [valueBets] at most. *)
Definition sameButValueBets (p q : MatchPrediction.t) : Prop :=
  MatchPrediction.match_ q = MatchPrediction.match_ p
  ∧ MatchPrediction.predictedResult q = MatchPrediction.predictedResult p
  ∧ MatchPrediction.confidenceLevel q = MatchPrediction.confidenceLevel p
  ∧ MatchPrediction.predictedScore q = MatchPrediction.predictedScore p
  ∧ MatchPrediction.patterns q = MatchPrediction.patterns p
  ∧ MatchPrediction.htftAnalysis q = MatchPrediction.htftAnalysis p
  ∧ MatchPrediction.headToHead q = MatchPrediction.headToHead p.

(** Propagation completeness as the specification words it: every stored
    bet that resolves to a stored prediction is embedded in it, once for
    its key. *)
Definition propagationComplete (s : View) : Prop :=
  ∀ b p, b ∈ valueBets s → p ∈ savedPredictions s → resolves p b = true →
    b ∈ MatchPrediction.embedded p ∧ countKey b (MatchPrediction.embedded p) = 1.

(** Replacing the first bet with the key of [updatedBet] only, as the
    specification words [update]; to be compared with what
    [handleUpdateValueBet] does. *)
Fixpoint replaceFirst (updatedBet : ValueBet.t) (l : list ValueBet.t) : list ValueBet.t :=
  match l with
  | [] => []
  | bet :: l' =>
      if sameKey updatedBet bet then updatedBet :: l'
      else bet :: replaceFirst updatedBet l'
  end.

(** At most one record for a [(home_team, away_team)] pair. *)
Definition uniqueFixtures (l : list MatchPrediction.t) : Prop :=
  ∀ i j p q, l !! i = Some p → l !! j = Some q → fixture p = fixture q → i = j.

(** The fixtures of the [SavePrediction] events of a trace, in order. *)
Fixpoint savedFixtures (events : list Event) : list (string * string) :=
  match events with
  | [] => []
  | SavePrediction prediction :: events' => fixture prediction :: savedFixtures events'
  | _ :: events' => savedFixtures events'
  end.

(** The elements of a list in the order of their first occurrence. *)
Definition firstOccurrences (l : list (string * string)) : list (string * string) :=
  reverse (remove_dups (reverse l)).

(** The event saves no prediction that comes with bets of its own, as the
    adapter's predictions never do. *)
Definition carriesNoBets (e : Event) : Prop :=
  match e with
  | SavePrediction prediction => MatchPrediction.valueBets prediction = None
  | _ => True
  end.

(** Whether some embedded bet of a stored prediction has the key of [b]. *)
Definition keyEmbedded (b : ValueBet.t) (s : View) : Prop :=
  ∃ p bet, p ∈ savedPredictions s ∧ bet ∈ MatchPrediction.embedded p
           ∧ betKey bet = betKey b.

(** ** Sample data *)

Definition sampleMatch (id : option string) (home away : string) : Match.t :=
  {| Match.id := id;
     Match.date := "2024-01-01T00:00:00.000Z";
     Match.home_team := home;
     Match.away_team := away;
     Match.home_score := 0;
     Match.away_score := 0;
     Match.ht_home_score := 0;
     Match.ht_away_score := 0 |}.

Definition samplePrediction (id : option string) (home away : string)
    (bets : option (list ValueBet.t)) : MatchPrediction.t :=
  {| MatchPrediction.match_ := sampleMatch id home away;
     MatchPrediction.predictedResult := draw;
     MatchPrediction.confidenceLevel := 0.5%float;
     MatchPrediction.predictedScore := {| Score.home := 1%float; Score.away := 1%float |};
     MatchPrediction.patterns := [];
     MatchPrediction.valueBets := bets;
     MatchPrediction.htftAnalysis := [];
     MatchPrediction.headToHead :=
       {| HeadToHead.homeTeam := home;
          HeadToHead.awayTeam := away;
          HeadToHead.totalMatches := 0;
          HeadToHead.homeWins := 0;
          HeadToHead.draws := 0;
          HeadToHead.awayWins := 0;
          HeadToHead.homeGoals := 0;
          HeadToHead.awayGoals := 0;
          HeadToHead.bothTeamsScored := 0;
          HeadToHead.avgTotalGoals := 2%float;
          HeadToHead.htftReversals := 0 |} |}.

Definition sampleBet (matchId type bookmaker : string) : ValueBet.t :=
  {| ValueBet.matchId := matchId;
     ValueBet.pattern := {| Pattern.type := type; Pattern.rest := [] |};
     ValueBet.rest := [("bookmaker", JsString bookmaker); ("odds", JsNumber 2%float)] |}.

Definition predXY : MatchPrediction.t := samplePrediction None "X" "Y" None.

Definition betXY : ValueBet.t :=
  sampleBet "X-Y-2024-01-01T00:00:00.000Z" "over_2_5" "first".

Definition betXY' : ValueBet.t :=
  sampleBet "X-Y-2024-01-01T00:00:00.000Z" "over_2_5" "second".

Definition betXY'' : ValueBet.t :=
  sampleBet "X-Y-2024-01-01T00:00:00.000Z" "over_2_5" "third".

Definition sampleOutput (winner : JsValue) : AdvancedPrediction.t :=
  {| AdvancedPrediction.predictedWinner := winner;
     AdvancedPrediction.confidence := 0.5%float;
     AdvancedPrediction.modelPredictions :=
       {| ModelPredictions.poisson :=
            {| Poisson.homeGoals := 1%float; Poisson.awayGoals := 2%float |} |};
     AdvancedPrediction.patterns := [];
     AdvancedPrediction.homeExpectedGoals := 1%float;
     AdvancedPrediction.awayExpectedGoals := 2%float |}.

(** ** Arrays *)

Lemma findIndex_Some {A : Type} (f : A → bool) (l : list A) (i : nat) :
  findIndex f l = Some i →
  ∃ x, l !! i = Some x ∧ f x = true ∧ ∀ j y, j < i → l !! j = Some y → f y = false.
Proof.
  revert i. induction l as [|a l IH]; intros i; simpl; [discriminate|].
  destruct (f a) eqn:Ha.
  - intros [= <-]. exists a. split_and!; [done..|]. intros j y Hj. lia.
  - destruct (findIndex f l) as [k|] eqn:Hk; simpl; [|discriminate].
    intros [= <-]. destruct (IH k eq_refl) as (x & Hx & Hfx & Hfirst).
    exists x. split_and!; [done..|].
    intros [|j] y Hj; simpl.
    + by intros [= <-].
    + apply Hfirst. lia.
Qed.

Lemma findIndex_None {A : Type} (f : A → bool) (l : list A) :
  findIndex f l = None ↔ ∀ x, x ∈ l → f x = false.
Proof.
  induction l as [|a l IH]; simpl.
  - split; [|done]. intros _ x Hx. by apply elem_of_nil in Hx.
  - destruct (f a) eqn:Ha.
    + split; [discriminate|]. intros H. specialize (H a (list_elem_of_here _ _)). congruence.
    + destruct (findIndex f l) as [k|]; simpl.
      * split; [discriminate|]. intros H.
        assert (Some k = None) as Hk; [|discriminate].
        apply IH. intros x Hx. apply H. by right.
      * split; [|done]. intros _ x [->|Hx]%elem_of_cons; [done|].
        by apply IH.
Qed.

Lemma sameFixture_true (prediction p : MatchPrediction.t) :
  sameFixture prediction p = true ↔ fixture p = fixture prediction.
Proof.
  unfold sameFixture, fixture. rewrite andb_true_iff, !String.eqb_eq.
  split; [intros [-> ->]; done | intros [= -> ->]; done].
Qed.

Lemma sameFixture_false (prediction p : MatchPrediction.t) :
  sameFixture prediction p = false ↔ fixture p ≠ fixture prediction.
Proof.
  rewrite <- sameFixture_true. destruct (sameFixture prediction p); naive_solver.
Qed.

Lemma sameKey_true (updatedBet bet : ValueBet.t) :
  sameKey updatedBet bet = true ↔ betKey bet = betKey updatedBet.
Proof.
  unfold sameKey, betKey. rewrite andb_true_iff, !String.eqb_eq.
  split; [intros [-> ->]; done | intros [= -> ->]; done].
Qed.

Lemma sameKey_refl (b : ValueBet.t) : sameKey b b = true.
Proof. by apply sameKey_true. Qed.

(** ** The Prediction Store: [handleSavePrediction] *)

Lemma uniqueFixtures_NoDup (l : list MatchPrediction.t) :
  uniqueFixtures l ↔ NoDup (fixture <$> l).
Proof.
  rewrite NoDup_alt. unfold uniqueFixtures. split.
  - intros H i j k. rewrite !list_lookup_fmap.
    destruct (l !! i) as [p|] eqn:Hp; [|discriminate].
    destruct (l !! j) as [q|] eqn:Hq; [|discriminate].
    simpl. intros Hi Hj. apply (H i j p q); congruence.
  - intros H i j p q Hp Hq Hpq. apply (H i j (fixture p)).
    + by rewrite list_lookup_fmap, Hp.
    + by rewrite list_lookup_fmap, Hq, Hpq.
Qed.

Lemma fixture_attach (bet : ValueBet.t) (p : MatchPrediction.t) :
  fixture (attach bet p) = fixture p.
Proof. unfold attach. by destruct (resolves p bet). Qed.

Lemma fixture_reattach (updatedBet : ValueBet.t) (p : MatchPrediction.t) :
  fixture (reattach updatedBet p) = fixture p.
Proof.
  unfold reattach. destruct (MatchPrediction.valueBets p) as [bets|]; [|done].
  by destruct (existsb _ bets).
Qed.

Lemma fixtures_handleSaveValueBet (bet : ValueBet.t) (s : View) :
  fixture <$> savedPredictions (handleSaveValueBet bet s) = fixture <$> savedPredictions s.
Proof.
  simpl. destruct (0 <? _); [|done].
  rewrite <- list_fmap_compose. apply list_fmap_ext. intros i p _. apply fixture_attach.
Qed.

Lemma fixtures_handleUpdateValueBet (updatedBet : ValueBet.t) (s : View) :
  fixture <$> savedPredictions (handleUpdateValueBet updatedBet s)
  = fixture <$> savedPredictions s.
Proof.
  simpl. rewrite <- list_fmap_compose. apply list_fmap_ext.
  intros i p _. apply fixture_reattach.
Qed.

Lemma handleSavePrediction_found (prediction : MatchPrediction.t) (s : View) (i : nat) :
  findIndex (sameFixture prediction) (savedPredictions s) = Some i →
  handleSavePrediction prediction s
  = {| savedPredictions := <[i := prediction]> (savedPredictions s);
       valueBets := valueBets s;
       toasts := toasts s;
       renderedPredictions := renderedPredictions s |}.
Proof. intros H. unfold handleSavePrediction. simpl. by rewrite H. Qed.

Lemma handleSavePrediction_fresh (prediction : MatchPrediction.t) (s : View) :
  findIndex (sameFixture prediction) (savedPredictions s) = None →
  handleSavePrediction prediction s
  = {| savedPredictions := savedPredictions s ++ [prediction];
       valueBets := valueBets s;
       toasts := toasts s ++ ["Prediction saved successfully!"];
       renderedPredictions := renderedPredictions s |}.
Proof. intros H. unfold handleSavePrediction. simpl. by rewrite H. Qed.

Lemma findIndex_sameFixture_Some (prediction : MatchPrediction.t)
    (l : list MatchPrediction.t) (i : nat) :
  findIndex (sameFixture prediction) l = Some i →
  ∃ old, l !! i = Some old ∧ fixture old = fixture prediction
         ∧ ∀ j q, j < i → l !! j = Some q → fixture q ≠ fixture prediction.
Proof.
  intros (old & Hold & Hf & Hfirst)%findIndex_Some.
  exists old. split_and!; [done | by apply sameFixture_true |].
  intros j q Hj Hq. apply sameFixture_false. by eapply Hfirst.
Qed.

Lemma findIndex_sameFixture_None (prediction : MatchPrediction.t)
    (l : list MatchPrediction.t) :
  findIndex (sameFixture prediction) l = None →
  ∀ q, q ∈ l → fixture q ≠ fixture prediction.
Proof.
  intros H q Hq. apply sameFixture_false. by eapply findIndex_None.
Qed.

Lemma fixtures_handleSavePrediction (prediction : MatchPrediction.t) (s : View) :
  NoDup (fixture <$> savedPredictions s) →
  NoDup (fixture <$> savedPredictions (handleSavePrediction prediction s)).
Proof.
  intros Hnd.
  destruct (findIndex (sameFixture prediction) (savedPredictions s)) as [i|] eqn:Hi.
  - rewrite (handleSavePrediction_found _ _ _ Hi). simpl.
    apply findIndex_sameFixture_Some in Hi as (old & Hold & Hfix & _).
    rewrite list_fmap_insert, list_insert_id; [done|].
    by rewrite list_lookup_fmap, Hold, <- Hfix.
  - rewrite (handleSavePrediction_fresh _ _ Hi). simpl.
    rewrite fmap_app. apply NoDup_app. split_and!; [done| |apply NoDup_singleton].
    intros k (q & -> & Hq)%list_elem_of_fmap Hk%list_elem_of_singleton.
    by eapply findIndex_sameFixture_None.
Qed.

Lemma fixtures_step (s : View) (e : Event) :
  NoDup (fixture <$> savedPredictions s) →
  NoDup (fixture <$> savedPredictions (step s e)).
Proof.
  destruct e as [prediction|bet|updatedBet|]; simpl step.
  - apply fixtures_handleSavePrediction.
  - by rewrite fixtures_handleSaveValueBet.
  - by rewrite fixtures_handleUpdateValueBet.
  - done.
Qed.

Lemma fixtures_run (events : list Event) (s : View) :
  NoDup (fixture <$> savedPredictions s) →
  NoDup (fixture <$> savedPredictions (run s events)).
Proof.
  revert s. induction events as [|e events IH]; intros s Hs; [done|].
  apply IH. by apply fixtures_step.
Qed.

(** C4. [save(p)] is an upsert on the [(home_team, away_team)] pair: either
    the first record with the same pair (both names equal as strings) is
    replaced where it stands, the other records and the notifications are
    untouched; or no record has the pair, [p] is appended at the end and
    the one "saved" notification is sent. Nothing is validated: whatever
    [p] is, empty team names included, it is in the store afterwards. *)
Theorem handleSavePrediction_upsert (prediction : MatchPrediction.t) (s : View) :
  let s' := handleSavePrediction prediction s in
  valueBets s' = valueBets s
  ∧ prediction ∈ savedPredictions s'
  ∧ ((∃ i old,
        savedPredictions s !! i = Some old
        ∧ fixture old = fixture prediction
        ∧ (∀ j q, j < i → savedPredictions s !! j = Some q → fixture q ≠ fixture prediction)
        ∧ savedPredictions s' = <[i := prediction]> (savedPredictions s)
        ∧ length (savedPredictions s') = length (savedPredictions s)
        ∧ savedPredictions s' !! i = Some prediction
        ∧ (∀ j, j ≠ i → savedPredictions s' !! j = savedPredictions s !! j)
        ∧ toasts s' = toasts s)
     ∨ ((∀ q, q ∈ savedPredictions s → fixture q ≠ fixture prediction)
        ∧ savedPredictions s' = savedPredictions s ++ [prediction]
        ∧ toasts s' = toasts s ++ ["Prediction saved successfully!"])).
Proof.
  intros s'. subst s'.
  destruct (findIndex (sameFixture prediction) (savedPredictions s)) as [i|] eqn:Hi.
  - rewrite (handleSavePrediction_found _ _ _ Hi). simpl.
    apply findIndex_sameFixture_Some in Hi as (old & Hold & Hfix & Hfirst).
    assert (i < length (savedPredictions s)) as Hlt by by eapply lookup_lt_Some.
    split_and!; [done| |].
    + apply list_elem_of_lookup. exists i. by apply list_lookup_insert_eq.
    + left. exists i, old. split_and!; try done.
      * apply length_insert.
      * by apply list_lookup_insert_eq.
      * intros j Hj. by apply list_lookup_insert_ne.
  - rewrite (handleSavePrediction_fresh _ _ Hi). simpl.
    split_and!; [done| |].
    + apply elem_of_app. right. by apply list_elem_of_singleton.
    + right. split_and!; try done. by apply findIndex_sameFixture_None.
Qed.

(** A prediction whose team names are both empty is stored like any other. *)
Example handleSavePrediction_empty_names :
  savedPredictions (handleSavePrediction (samplePrediction None "" "" None) initial)
  = [samplePrediction None "" "" None].
Proof. reflexivity. Qed.

(** C2. In every state reached from the empty stores, by [save] calls and
    by bet events alike, no two records of the Prediction Store have the
    same [(home_team, away_team)] pair; and a further [save] for a pair
    that is already stored puts the new record in the place of the old one
    and leaves the number of records as it was. *)
Theorem savedPredictions_unique_fixture (events : list Event)
    (prediction : MatchPrediction.t) :
  let s := run initial events in
  let s' := handleSavePrediction prediction s in
  uniqueFixtures (savedPredictions s)
  ∧ uniqueFixtures (savedPredictions s')
  ∧ ∀ i old, savedPredictions s !! i = Some old → fixture old = fixture prediction →
      length (savedPredictions s') = length (savedPredictions s)
      ∧ savedPredictions s' !! i = Some prediction
      ∧ ∀ j, j ≠ i → savedPredictions s' !! j = savedPredictions s !! j.
Proof.
  intros s s'.
  assert (NoDup (fixture <$> savedPredictions s)) as Hs.
  { apply fixtures_run. simpl. apply NoDup_nil_2. }
  split_and!.
  - by apply uniqueFixtures_NoDup.
  - apply uniqueFixtures_NoDup. by apply fixtures_handleSavePrediction.
  - intros i old Hold Hfix. subst s'.
    destruct (findIndex (sameFixture prediction) (savedPredictions s)) as [k|] eqn:Hk.
    + rewrite (handleSavePrediction_found _ _ _ Hk). simpl.
      apply findIndex_sameFixture_Some in Hk as (old' & Hold' & Hfix' & _).
      assert (k = i) as ->.
      { apply uniqueFixtures_NoDup in Hs. apply (Hs k i old' old); congruence. }
      split_and!.
      * apply length_insert.
      * apply list_lookup_insert_eq. by eapply lookup_lt_Some.
      * intros j Hj. by apply list_lookup_insert_ne.
    + exfalso. eapply findIndex_sameFixture_None; [done| |done].
      by eapply list_elem_of_lookup_2.
Qed.

(** Saving for the same pair twice keeps one record, the later one, and
    notifies once; a different away team makes a second record. *)
Example save_same_pair_twice :
  let p1 := samplePrediction None "A" "B" None in
  let p2 := samplePrediction (Some "m2") "A" "B" None in
  let p3 := samplePrediction None "A" "C" None in
  savedPredictions (run initial [SavePrediction p1; SavePrediction p2]) = [p2]
  ∧ savedPredictions (run initial [SavePrediction p1; SavePrediction p3]) = [p1; p3]
  ∧ toasts (run initial [SavePrediction p1; SavePrediction p2])
    = ["Prediction saved successfully!"].
Proof. by vm_compute. Qed.

(** ** The Value-Bet Store and the propagation into predictions *)

Lemma sameButValueBets_refl (p : MatchPrediction.t) : sameButValueBets p p.
Proof. by repeat split. Qed.

Lemma sameButValueBets_withValueBets (p : MatchPrediction.t) (v : list ValueBet.t) :
  sameButValueBets p (MatchPrediction.withValueBets p v).
Proof. by repeat split. Qed.

Lemma sameButValueBets_trans (p q r : MatchPrediction.t) :
  sameButValueBets p q → sameButValueBets q r → sameButValueBets p r.
Proof. unfold sameButValueBets. intuition congruence. Qed.

Create HintDb frame.
#[local] Hint Resolve sameButValueBets_refl sameButValueBets_withValueBets : frame.

Lemma sameButValueBets_attach (bet : ValueBet.t) (p : MatchPrediction.t) :
  sameButValueBets p (attach bet p).
Proof. unfold attach. destruct (resolves p bet); auto with frame. Qed.

Lemma sameButValueBets_reattach (updatedBet : ValueBet.t) (p : MatchPrediction.t) :
  sameButValueBets p (reattach updatedBet p).
Proof.
  unfold reattach. destruct (MatchPrediction.valueBets p) as [bets|]; [|auto with frame].
  destruct (existsb _ bets); auto with frame.
Qed.

Lemma resolves_sameButValueBets (p q : MatchPrediction.t) (bet : ValueBet.t) :
  sameButValueBets p q → resolves q bet = resolves p bet.
Proof. intros (Hm & _). unfold resolves. by rewrite Hm. Qed.

Lemma savedPredictions_handleSaveValueBet_rendered (bet : ValueBet.t) (s : View) :
  renderedPredictions s ≠ [] →
  savedPredictions (handleSaveValueBet bet s) = attach bet <$> savedPredictions s.
Proof. simpl. by destruct (renderedPredictions s). Qed.

Lemma savedPredictions_handleSaveValueBet_stale (bet : ValueBet.t) (s : View) :
  renderedPredictions s = [] →
  savedPredictions (handleSaveValueBet bet s) = savedPredictions s.
Proof. simpl. by intros ->. Qed.

Lemma lookup_handleSaveValueBet (bet : ValueBet.t) (s : View) (i : nat) :
  renderedPredictions s ≠ [] →
  savedPredictions (handleSaveValueBet bet s) !! i
  = attach bet <$> savedPredictions s !! i.
Proof.
  intros H. rewrite (savedPredictions_handleSaveValueBet_rendered bet s H).
  apply list_lookup_fmap.
Qed.

Lemma Forall2_sameButValueBets_fmap (f : MatchPrediction.t → MatchPrediction.t)
    (l : list MatchPrediction.t) :
  (∀ p, sameButValueBets p (f p)) → Forall2 sameButValueBets l (f <$> l).
Proof. intros Hf. induction l as [|p l IH]; simpl; constructor; auto. Qed.

Lemma Forall2_sameButValueBets_refl (l : list MatchPrediction.t) :
  Forall2 sameButValueBets l l.
Proof. induction l as [|p l IH]; constructor; auto with frame. Qed.

Lemma embedded_attach (bet : ValueBet.t) (p : MatchPrediction.t) :
  MatchPrediction.embedded (attach bet p)
  = MatchPrediction.embedded p ++ (if resolves p bet then [bet] else []).
Proof.
  unfold attach. destruct (resolves p bet); [done|]. by rewrite app_nil_r.
Qed.

Lemma replaceBet_key (updatedBet bet : ValueBet.t) :
  betKey (replaceBet updatedBet bet) = betKey bet.
Proof.
  unfold replaceBet. destruct (sameKey updatedBet bet) eqn:H; [|done].
  symmetry. by apply sameKey_true.
Qed.

Lemma replaceBet_same (updatedBet bet : ValueBet.t) :
  betKey bet = betKey updatedBet → replaceBet updatedBet bet = updatedBet.
Proof. intros H%sameKey_true. unfold replaceBet. by rewrite H. Qed.

Lemma replaceBet_other (updatedBet bet : ValueBet.t) :
  betKey bet ≠ betKey updatedBet → replaceBet updatedBet bet = bet.
Proof.
  intros H. unfold replaceBet. destruct (sameKey updatedBet bet) eqn:Hk; [|done].
  by apply sameKey_true in Hk.
Qed.

Lemma existsb_sameKey_false (updatedBet : ValueBet.t) (bets : list ValueBet.t) :
  existsb (sameKey updatedBet) bets = false ↔
  ∀ bet, bet ∈ bets → betKey bet ≠ betKey updatedBet.
Proof.
  induction bets as [|b bets IH]; simpl.
  - split; [|done]. intros _ bet Hbet. by apply elem_of_nil in Hbet.
  - rewrite orb_false_iff, IH. split.
    + intros [Hb Hbets] bet [->|Hbet]%elem_of_cons; [|by apply Hbets].
      intros Hk%sameKey_true. congruence.
    + intros H. split.
      * destruct (sameKey updatedBet b) eqn:Hk; [|done].
        apply sameKey_true in Hk. by apply H in Hk; [|left].
      * intros bet Hbet. apply H. by right.
Qed.

Lemma replaceBet_absent (updatedBet : ValueBet.t) (bets : list ValueBet.t) :
  (∀ bet, bet ∈ bets → betKey bet ≠ betKey updatedBet) →
  replaceBet updatedBet <$> bets = bets.
Proof.
  intros H. rewrite <- (list_fmap_id bets) at 2. apply list_fmap_ext.
  intros i bet Hbet. apply replaceBet_other, H. by eapply list_elem_of_lookup_2.
Qed.

Lemma embedded_reattach (updatedBet : ValueBet.t) (p : MatchPrediction.t) :
  MatchPrediction.embedded (reattach updatedBet p)
  = replaceBet updatedBet <$> MatchPrediction.embedded p.
Proof.
  unfold reattach, MatchPrediction.embedded.
  destruct (MatchPrediction.valueBets p) as [bets|] eqn:Hp; simpl; [|by rewrite Hp].
  destruct (existsb (sameKey updatedBet) bets) eqn:He; simpl; [done|].
  rewrite Hp. simpl. symmetry. by apply replaceBet_absent, existsb_sameKey_false.
Qed.

Lemma replaceBet_elem (updatedBet bet : ValueBet.t) (bets : list ValueBet.t) :
  bet ∈ replaceBet updatedBet <$> bets → betKey bet = betKey updatedBet →
  bet = updatedBet.
Proof.
  intros (b & -> & _)%list_elem_of_fmap. rewrite replaceBet_key.
  apply replaceBet_same.
Qed.

Lemma replaceBet_lookup (updatedBet : ValueBet.t) (bets : list ValueBet.t)
    (k : nat) (bet : ValueBet.t) :
  bets !! k = Some bet →
  (betKey bet = betKey updatedBet → (replaceBet updatedBet <$> bets) !! k = Some updatedBet)
  ∧ (betKey bet ≠ betKey updatedBet → (replaceBet updatedBet <$> bets) !! k = Some bet).
Proof.
  intros Hk. rewrite list_lookup_fmap, Hk. simpl.
  split; intros H; f_equal; [by apply replaceBet_same | by apply replaceBet_other].
Qed.

Lemma sameKey_replaceBet (updatedBet bet : ValueBet.t) :
  sameKey updatedBet (replaceBet updatedBet bet) = sameKey updatedBet bet.
Proof.
  unfold replaceBet. destruct (sameKey updatedBet bet) eqn:H; [|done].
  apply sameKey_refl.
Qed.

Lemma countKey_replaceBet (updatedBet : ValueBet.t) (bets : list ValueBet.t) :
  countKey updatedBet (replaceBet updatedBet <$> bets) = countKey updatedBet bets.
Proof.
  unfold countKey. induction bets as [|b l IH]; [done|].
  rewrite fmap_cons. cbn [List.filter]. rewrite sameKey_replaceBet.
  destruct (sameKey updatedBet b); cbn [length]; by rewrite IH.
Qed.

Lemma countKey_app (b : ValueBet.t) (l k : list ValueBet.t) :
  countKey b (l ++ k) = countKey b l + countKey b k.
Proof. unfold countKey. by rewrite List.filter_app, length_app. Qed.

(** X18. [saveValueBet(b)] appends [b] to the Value-Bet Store and sends
    no notification. When the Prediction Store of the last render was not
    empty, every record of the current store whose match resolves to
    [b.matchId], each of them and not the first only, gets [b] appended to
    its [valueBets] (a sequence that is created when absent) and every
    other record is left as it is. When it was empty the Prediction Store
    is left as it is, whatever it holds by now. *)
Theorem handleSaveValueBet_attach (bet : ValueBet.t) (s : View) :
  let s' := handleSaveValueBet bet s in
  valueBets s' = valueBets s ++ [bet]
  ∧ toasts s' = toasts s
  ∧ renderedPredictions s' = renderedPredictions s
  ∧ length (savedPredictions s') = length (savedPredictions s)
  ∧ (renderedPredictions s = [] → savedPredictions s' = savedPredictions s)
  ∧ (renderedPredictions s ≠ [] →
     ∀ i p, savedPredictions s !! i = Some p →
       ∃ p', savedPredictions s' !! i = Some p'
         ∧ sameButValueBets p p'
         ∧ (resolves p bet = true →
              MatchPrediction.valueBets p' = Some (MatchPrediction.embedded p ++ [bet]))
         ∧ (resolves p bet = false → p' = p)).
Proof.
  intros s'. subst s'. split_and!; [done|done|done| | |].
  - simpl. destruct (0 <? _); [apply length_fmap | done].
  - apply savedPredictions_handleSaveValueBet_stale.
  - intros Hr i p Hp. exists (attach bet p). split_and!.
    + by rewrite lookup_handleSaveValueBet, Hp.
    + apply sameButValueBets_attach.
    + intros H. unfold attach. by rewrite H.
    + intros H. unfold attach. by rewrite H.
Qed.


(** Two predictions resolve to one bet, one by its explicit id and one by
    the composite key: both get the bet. *)
Example handleSaveValueBet_attaches_to_all :
  let byId := samplePrediction (Some "X-Y-2024-01-01T00:00:00.000Z") "A" "B" None in
  let s := run initial [SavePrediction byId; SavePrediction predXY; Render;
                        SaveValueBet betXY] in
  savedPredictions s
  = [MatchPrediction.withValueBets byId [betXY]; MatchPrediction.withValueBets predXY [betXY]].
Proof. by vm_compute. Qed.

(** C10. [saveValueBet(b)] and [updateValueBet(b)] keep the Prediction
    Store's length and order, and in each record change the [valueBets]
    field at most: match, predicted result, confidence, predicted score,
    patterns, half-time/full-time analysis and head-to-head are as before. *)
Theorem bet_handlers_frame (bet : ValueBet.t) (s : View) :
  (length (savedPredictions (handleSaveValueBet bet s)) = length (savedPredictions s)
   ∧ Forall2 sameButValueBets (savedPredictions s)
       (savedPredictions (handleSaveValueBet bet s)))
  ∧ (length (savedPredictions (handleUpdateValueBet bet s)) = length (savedPredictions s)
     ∧ Forall2 sameButValueBets (savedPredictions s)
         (savedPredictions (handleUpdateValueBet bet s))).
Proof.
  split; split.
  - simpl. destruct (0 <? _); [apply length_fmap | done].
  - simpl. destruct (0 <? _).
    + apply Forall2_sameButValueBets_fmap, sameButValueBets_attach.
    + apply Forall2_sameButValueBets_refl.
  - simpl. apply length_fmap.
  - simpl. apply Forall2_sameButValueBets_fmap, sameButValueBets_reattach.
Qed.

(** C3, as amended. [updateValueBet(b)] replaces every top-level bet whose
    [(matchId, pattern.type)] is the key of [b], the later ones as well as
    the first, and leaves every other bet where and as it is; when no bet
    has the key the Value-Bet Store is unchanged (nothing is inserted).
    Whether or not a top-level bet had the key, the traversal of the
    Prediction Store is done: in every record the embedded bets with the
    key of [b] are replaced by [b] and nothing else changes. *)
Theorem handleUpdateValueBet_replaces_all (updatedBet : ValueBet.t) (s : View) :
  let s' := handleUpdateValueBet updatedBet s in
  length (valueBets s') = length (valueBets s)
  ∧ (∀ i bet, valueBets s !! i = Some bet →
       (betKey bet = betKey updatedBet → valueBets s' !! i = Some updatedBet)
       ∧ (betKey bet ≠ betKey updatedBet → valueBets s' !! i = Some bet))
  ∧ ((∀ bet, bet ∈ valueBets s → betKey bet ≠ betKey updatedBet) →
       valueBets s' = valueBets s)
  ∧ toasts s' = toasts s
  ∧ length (savedPredictions s') = length (savedPredictions s)
  ∧ ∀ i p, savedPredictions s !! i = Some p →
      ∃ p', savedPredictions s' !! i = Some p'
        ∧ sameButValueBets p p'
        ∧ length (MatchPrediction.embedded p') = length (MatchPrediction.embedded p)
        ∧ ∀ k bet, MatchPrediction.embedded p !! k = Some bet →
            (betKey bet = betKey updatedBet →
               MatchPrediction.embedded p' !! k = Some updatedBet)
            ∧ (betKey bet ≠ betKey updatedBet →
                 MatchPrediction.embedded p' !! k = Some bet).
Proof.
  intros s'. subst s'. simpl. split_and!.
  - apply length_fmap.
  - intros i bet. apply replaceBet_lookup.
  - apply replaceBet_absent.
  - done.
  - apply length_fmap.
  - intros i p Hp. exists (reattach updatedBet p). split_and!.
    + by rewrite list_lookup_fmap, Hp.
    + apply sameButValueBets_reattach.
    + rewrite embedded_reattach. apply length_fmap.
    + intros k bet. rewrite embedded_reattach. apply replaceBet_lookup.
Qed.

(** C3, as the specification words it, fails: with two bets of one key in
    the Value-Bet Store, an update of that key replaces the second bet too,
    so the store is not the one in which the first match alone is replaced. *)
Lemma handleUpdateValueBet_not_first_only :
  let s := run initial [SaveValueBet betXY; SaveValueBet betXY'] in
  valueBets s = [betXY; betXY']
  ∧ betKey betXY = betKey betXY''
  ∧ betKey betXY' = betKey betXY''
  ∧ replaceFirst betXY'' (valueBets s) = [betXY''; betXY']
  ∧ valueBets (handleUpdateValueBet betXY'' s) = [betXY''; betXY'']
  ∧ valueBets (handleUpdateValueBet betXY'' s) ≠ replaceFirst betXY'' (valueBets s).
Proof.
  split_and!; [by vm_compute..|]. vm_compute. intros H. discriminate H.
Qed.

(** C6. When the Value-Bet Store has a bet with the key of [b], then after
    [updateValueBet(b)] the store holds [b], every top-level bet with that
    key is [b], and every bet with that key embedded in any prediction is
    [b]: the store and the embedded copies show the same fields. *)
Theorem handleUpdateValueBet_coherent (updatedBet : ValueBet.t) (s : View) :
  (∃ bet, bet ∈ valueBets s ∧ betKey bet = betKey updatedBet) →
  let s' := handleUpdateValueBet updatedBet s in
  updatedBet ∈ valueBets s'
  ∧ (∀ bet, bet ∈ valueBets s' → betKey bet = betKey updatedBet → bet = updatedBet)
  ∧ (∀ p bet, p ∈ savedPredictions s' → bet ∈ MatchPrediction.embedded p →
       betKey bet = betKey updatedBet → bet = updatedBet)
  ∧ (∀ i p, savedPredictions s !! i = Some p →
       ∃ p', savedPredictions s' !! i = Some p'
         ∧ countKey updatedBet (MatchPrediction.embedded p')
           = countKey updatedBet (MatchPrediction.embedded p)).
Proof.
  intros (bet0 & Hin & Hkey) s'. subst s'. simpl. split_and!.
  - apply list_elem_of_fmap. exists bet0. split; [|done].
    symmetry. by apply replaceBet_same.
  - intros bet. apply replaceBet_elem.
  - intros p bet (q & -> & Hq)%list_elem_of_fmap. rewrite embedded_reattach.
    apply replaceBet_elem.
  - intros i p Hp. exists (reattach updatedBet p). split.
    + by rewrite list_lookup_fmap, Hp.
    + rewrite embedded_reattach. apply countKey_replaceBet.
Qed.

(** The update of a key held twice, at the top level and in a prediction. *)
Lemma handleUpdateValueBet_coherent_witness :
  let s := run initial [SavePrediction predXY; Render; SaveValueBet betXY; SaveValueBet betXY'] in
  let s' := handleUpdateValueBet betXY'' s in
  (∃ bet, bet ∈ valueBets s ∧ betKey bet = betKey betXY'')
  ∧ valueBets s' = [betXY''; betXY'']
  ∧ savedPredictions s' = [MatchPrediction.withValueBets predXY [betXY''; betXY'']]
  ∧ betXY'' ∈ valueBets s'
  ∧ (∀ bet, bet ∈ valueBets s' → betKey bet = betKey betXY'' → bet = betXY'').
Proof.
  assert (∃ bet,
    bet ∈ valueBets (run initial [SavePrediction predXY; Render; SaveValueBet betXY; SaveValueBet betXY'])
    ∧ betKey bet = betKey betXY'') as H.
  { exists betXY. split; [by left | reflexivity]. }
  split_and!; [exact H | reflexivity | reflexivity | |].
  - apply (handleUpdateValueBet_coherent betXY'' _ H).
  - apply (handleUpdateValueBet_coherent betXY'' _ H).
Defined.

(** ** Match identity *)

(** C7. For a prediction whose match has no explicit id, a bet resolves to
    it exactly when [bet.matchId] is the string
    ["{home_team}-{away_team}-{date}"] of its match, compared as strings
    are: so the bet ["X-Y-2024-01-01T00:00:00.000Z"] resolves to the match
    of X against Y at that date. *)
Theorem resolves_fallback_key (prediction : MatchPrediction.t) (bet : ValueBet.t) :
  Match.id (MatchPrediction.match_ prediction) = None →
  let m := MatchPrediction.match_ prediction in
  (resolves prediction bet = true ↔
     ValueBet.matchId bet
     = Match.home_team m +:+ "-" +:+ Match.away_team m +:+ "-" +:+ Match.date m)
  ∧ (Match.home_team m = "X" → Match.away_team m = "Y" →
     Match.date m = "2024-01-01T00:00:00.000Z" →
     ValueBet.matchId bet = "X-Y-2024-01-01T00:00:00.000Z" →
     resolves prediction bet = true).
Proof.
  intros Hid m.
  assert (resolves prediction bet = true ↔
          ValueBet.matchId bet
          = Match.home_team m +:+ "-" +:+ Match.away_team m +:+ "-" +:+ Match.date m) as H.
  { subst m. unfold resolves, idEquals. rewrite Hid. simpl orb.
    rewrite String.eqb_eq. unfold fallbackKey. split; congruence. }
  split; [exact H|]. intros Hh Ha Hd Hb. apply H. by rewrite Hh, Ha, Hd, Hb.
Qed.

(** The sample of the specification: X against Y on 2024-01-01. *)
Lemma resolves_fallback_key_witness :
  Match.id (MatchPrediction.match_ predXY) = None
  ∧ ValueBet.matchId betXY = "X-Y-2024-01-01T00:00:00.000Z"
  ∧ resolves predXY betXY = true.
Proof.
  split_and!; [reflexivity..|].
  apply (resolves_fallback_key predXY betXY eq_refl); reflexivity.
Defined.

(** The comparison is exact: another letter case does not resolve. *)
Example resolves_case_sensitive :
  resolves predXY (sampleBet "x-y-2024-01-01T00:00:00.000Z" "over_2_5" "first") = false.
Proof. reflexivity. Qed.

(** ** The adapter *)

Lemma falsy_false (s : string) : s ≠ "" → falsy s = false.
Proof. by destruct s. Qed.

Lemma strictEqString_true (v : JsValue) (s : string) :
  strictEqString v s = true ↔ v = JsString s.
Proof.
  destruct v; simpl; try (split; [discriminate | intros [=]]).
  rewrite String.eqb_eq. split; congruence.
Qed.

(** C8. For non-empty team names the adapter returns a prediction whatever
    the model's winner signal is: ["home"] gives [home_win], ["away"] gives
    [away_win], and every other value (["draw"], an absent one, a value
    that is no string) gives [draw]. *)
Theorem generateAdvancedPrediction_winner
    (runPrediction : string → string → list Match.t → AdvancedPrediction.t)
    (currentMatches : list Match.t) (now homeTeam awayTeam : string) :
  homeTeam ≠ "" → awayTeam ≠ "" →
  let winner :=
    AdvancedPrediction.predictedWinner (runPrediction homeTeam awayTeam currentMatches) in
  ∃ prediction,
    generateAdvancedPrediction runPrediction currentMatches now homeTeam awayTeam
    = Some prediction
    ∧ (winner = JsString "home" → MatchPrediction.predictedResult prediction = home_win)
    ∧ (winner = JsString "away" → MatchPrediction.predictedResult prediction = away_win)
    ∧ (winner ≠ JsString "home" → winner ≠ JsString "away" →
       MatchPrediction.predictedResult prediction = draw)
    ∧ (winner = JsString "draw" ∨ winner = JsUndefined →
       MatchPrediction.predictedResult prediction = draw).
Proof.
  intros Hh Ha winner. unfold generateAdvancedPrediction.
  rewrite (falsy_false _ Hh), (falsy_false _ Ha). simpl orb. cbv iota.
  eexists. split; [reflexivity|]. cbn [MatchPrediction.predictedResult]. fold winner.
  split_and!.
  - intros ->. reflexivity.
  - intros ->. reflexivity.
  - intros H1 H2.
    destruct (strictEqString winner "home") eqn:E1; [by apply strictEqString_true in E1|].
    destruct (strictEqString winner "away") eqn:E2; [by apply strictEqString_true in E2|].
    done.
  - intros [-> | ->]; reflexivity.
Qed.

(** A model that answers ["home"] for the fixture A against B. *)
Lemma generateAdvancedPrediction_winner_witness :
  ∃ prediction,
    generateAdvancedPrediction (λ _ _ _, sampleOutput (JsString "home")) [] "now" "A" "B"
    = Some prediction
    ∧ MatchPrediction.predictedResult prediction = home_win.
Proof.
  destruct (generateAdvancedPrediction_winner
              (λ _ _ _, sampleOutput (JsString "home")) [] "now" "A" "B")
    as (prediction & Heq & Hhome & _); [discriminate | discriminate |].
  exists prediction. split; [exact Heq | by apply Hhome].
Defined.

(** The winner signal at work on sample outputs. *)
Example generateAdvancedPrediction_winner_samples :
  let result winner :=
    MatchPrediction.predictedResult
      <$> generateAdvancedPrediction (λ _ _ _, sampleOutput winner) [] "now" "A" "B" in
  result (JsString "home") = Some home_win
  ∧ result (JsString "away") = Some away_win
  ∧ result (JsString "draw") = Some draw
  ∧ result (JsString "Home") = Some draw
  ∧ result JsUndefined = Some draw
  ∧ result JsNull = Some draw
  ∧ result (JsNumber 1%float) = Some draw.
Proof. by repeat split. Qed.

(** C9. With an empty home name or an empty away name the adapter returns
    the null case, whatever the model would say; with two non-empty names
    it returns a prediction record. *)
Theorem generateAdvancedPrediction_null
    (runPrediction : string → string → list Match.t → AdvancedPrediction.t)
    (currentMatches : list Match.t) (now homeTeam awayTeam : string) :
  generateAdvancedPrediction runPrediction currentMatches now "" awayTeam = None
  ∧ generateAdvancedPrediction runPrediction currentMatches now homeTeam "" = None
  ∧ (homeTeam ≠ "" → awayTeam ≠ "" →
     ∃ prediction,
       generateAdvancedPrediction runPrediction currentMatches now homeTeam awayTeam
       = Some prediction
       ∧ Match.home_team (MatchPrediction.match_ prediction) = homeTeam
       ∧ Match.away_team (MatchPrediction.match_ prediction) = awayTeam).
Proof.
  split_and!.
  - reflexivity.
  - unfold generateAdvancedPrediction. by destruct (falsy homeTeam).
  - intros Hh Ha. unfold generateAdvancedPrediction.
    rewrite (falsy_false _ Hh), (falsy_false _ Ha). simpl orb. cbv iota.
    eexists. by split_and!.
Qed.

(** Team A, Team B and the empty name. *)
Lemma generateAdvancedPrediction_null_witness :
  generateAdvancedPrediction (λ _ _ _, sampleOutput JsNull) [] "now" "" "Team B" = None
  ∧ generateAdvancedPrediction (λ _ _ _, sampleOutput JsNull) [] "now" "Team A" "" = None
  ∧ ∃ prediction,
      generateAdvancedPrediction (λ _ _ _, sampleOutput JsNull) [] "now" "Team A" "Team B"
      = Some prediction.
Proof.
  destruct (generateAdvancedPrediction_null
              (λ _ _ _, sampleOutput JsNull) [] "now" "Team A" "Team B")
    as (H1 & H2 & H3).
  split_and!; [exact H1 | exact H2 |].
  destruct H3 as (prediction & Heq & _); [discriminate | discriminate |].
  by exists prediction.
Defined.

(** ** Propagation along a trace *)

Lemma sameFixture_sameButValueBets (p p' q : MatchPrediction.t) :
  sameButValueBets p p' → sameFixture p' q = sameFixture p q.
Proof. intros (Hm & _). unfold sameFixture. by rewrite Hm. Qed.

Lemma filter_resolves_sameButValueBets (p p' : MatchPrediction.t) (bets : list ValueBet.t) :
  sameButValueBets p p' → List.filter (resolves p') bets = List.filter (resolves p) bets.
Proof.
  intros H. apply List.filter_ext. intros bet. by apply resolves_sameButValueBets.
Qed.

(** One event that neither updates a bet nor saves a prediction for the
    fixture of [p], run by handlers that saw a non-empty store at their
    render, leaves [p] in its place and embeds the bet it adds, if it adds
    one that resolves to [p]. *)
Lemma step_propagates (s : View) (e : Event) (i : nat) (p : MatchPrediction.t) :
  savedPredictions s !! i = Some p →
  renderedPredictions s ≠ [] →
  isUpdate e = false → savesFixtureOf p e = false →
  valueBets (step s e) = valueBets s ++ addedBets [e]
  ∧ renderedPredictions (step s e) ≠ []
  ∧ ∃ p', savedPredictions (step s e) !! i = Some p'
      ∧ sameButValueBets p p'
      ∧ MatchPrediction.embedded p'
        = MatchPrediction.embedded p ++ List.filter (resolves p) (addedBets [e]).
Proof.
  intros Hp Hr Hu Hs. destruct e as [q|bet|updatedBet|]; simpl in *; [| |discriminate|].
  - assert (savedPredictions (handleSavePrediction q s) !! i = Some p
            ∧ valueBets (handleSavePrediction q s) = valueBets s
            ∧ renderedPredictions (handleSavePrediction q s) = renderedPredictions s)
      as (Hi & Hv & Hr').
    { destruct (findIndex (sameFixture q) (savedPredictions s)) as [k|] eqn:Hk.
      - rewrite (handleSavePrediction_found _ _ _ Hk). simpl. split; [|done].
        apply findIndex_sameFixture_Some in Hk as (old & Hold & Hfix & _).
        rewrite list_lookup_insert_ne; [done|]. intros ->.
        apply sameFixture_false in Hs. congruence.
      - rewrite (handleSavePrediction_fresh _ _ Hk). simpl. split; [|done].
        by apply lookup_app_l_Some. }
    rewrite Hv, Hr', !app_nil_r. split_and!; [done..|]. exists p. auto with frame.
  - split_and!; [done..|]. exists (attach bet p). split_and!.
    + pose proof (lookup_handleSaveValueBet bet s i Hr) as H. simpl in H.
      by rewrite H, Hp.
    + apply sameButValueBets_attach.
    + rewrite embedded_attach. by destruct (resolves p bet).
  - rewrite !app_nil_r. split_and!; [done | |].
    + intros H. by rewrite H in Hp.
    + exists p. auto with frame.
Qed.

Lemma run_propagates (events : list Event) (s : View) (i : nat) (p : MatchPrediction.t) :
  savedPredictions s !! i = Some p →
  renderedPredictions s ≠ [] →
  Forall (λ e, isUpdate e = false ∧ savesFixtureOf p e = false) events →
  valueBets (run s events) = valueBets s ++ addedBets events
  ∧ ∃ p', savedPredictions (run s events) !! i = Some p'
      ∧ sameButValueBets p p'
      ∧ MatchPrediction.embedded p'
        = MatchPrediction.embedded p ++ List.filter (resolves p) (addedBets events).
Proof.
  revert s p. induction events as [|e events IH]; intros s p Hp Hr Hall.
  - simpl. rewrite !app_nil_r. split; [done|]. exists p. auto with frame.
  - apply Forall_cons in Hall as [[Hu Hs] Hall].
    destruct (step_propagates s e i p Hp Hr Hu Hs)
      as (Hv & Hr1 & p1 & Hp1 & Hsame1 & Hemb1).
    destruct (IH (step s e) p1 Hp1 Hr1) as (Hv' & p' & Hp' & Hsame' & Hemb').
    { eapply Forall_impl; [exact Hall|]. intros e' [Hu' Hs']. split; [done|].
      destruct e' as [q| | |]; simpl in *; try done.
      by rewrite (sameFixture_sameButValueBets p p1 q Hsame1). }
    assert (addedBets (e :: events) = addedBets [e] ++ addedBets events) as Hadd.
    { by destruct e. }
    change (run s (e :: events)) with (run (step s e) events).
    rewrite Hv', Hv, Hadd, <- app_assoc. split; [done|].
    exists p'. split_and!; [done | by eapply sameButValueBets_trans |].
    rewrite Hemb', Hemb1, (filter_resolves_sameButValueBets p p1 _ Hsame1).
    by rewrite List.filter_app, <- app_assoc.
Qed.

(** C1, as amended. Take any state, one reached from the empty stores by
    any interleaving in particular, in which the view has rendered with a
    prediction in its store, and a prediction [p] in its Prediction Store;
    and run further [saveValueBet] and [save] calls, in any interleaving
    and with the view rendering again or not between them, of which no
    [save] is for the [(home_team, away_team)] pair of [p]. Then the
    Value-Bet Store has grown by the added bets, [p] is still at its place,
    changed in [valueBets] at most, and its embedded bets are those it had
    followed by the added bets that resolve to its match, in the order of
    the calls and one copy for each call. So an added bet that resolves to
    [p] is embedded in [p], and it is the only embedded bet of its key when
    [p] had none of that key and no other added bet that resolves to [p]
    has that key. *)
Theorem propagation_after_last_save (s : View) (events : list Event) (i : nat)
    (p : MatchPrediction.t) :
  savedPredictions s !! i = Some p →
  renderedPredictions s ≠ [] →
  Forall (λ e, isUpdate e = false ∧ savesFixtureOf p e = false) events →
  let s' := run s events in
  let added := List.filter (resolves p) (addedBets events) in
  valueBets s' = valueBets s ++ addedBets events
  ∧ ∃ p', savedPredictions s' !! i = Some p'
      ∧ sameButValueBets p p'
      ∧ MatchPrediction.embedded p' = MatchPrediction.embedded p ++ added
      ∧ ∀ b, countKey b (MatchPrediction.embedded p')
             = countKey b (MatchPrediction.embedded p) + countKey b added
             ∧ (b ∈ addedBets events → resolves p' b = true →
                  b ∈ MatchPrediction.embedded p'
                  ∧ (countKey b (MatchPrediction.embedded p) = 0 →
                     countKey b added = 1 →
                     countKey b (MatchPrediction.embedded p') = 1)).
Proof.
  intros Hp Hr Hall s' added.
  destruct (run_propagates events s i p Hp Hr Hall) as (Hv & p' & Hp' & Hsame & Hemb).
  split; [done|]. exists p'. split_and!; [done..|].
  intros b. fold added in Hemb. rewrite Hemb, countKey_app. split; [done|].
  intros Hb Hres. split; [|lia].
  apply elem_of_app. right. apply list_elem_of_In, List.filter_In.
  split; [by apply list_elem_of_In|].
  by rewrite <- (resolves_sameButValueBets p p' b Hsame).
Qed.

(** A bet added before X against Y is saved, then another fixture and a
    second bet: the second bet alone is embedded. *)
Lemma propagation_after_last_save_witness :
  let s := run initial [SaveValueBet betXY; Render; SavePrediction predXY; Render] in
  let events := [SavePrediction (samplePrediction None "A" "B" None); SaveValueBet betXY'] in
  savedPredictions s !! 0 = Some predXY
  ∧ renderedPredictions s ≠ []
  ∧ valueBets (run s events) = [betXY; betXY']
  ∧ ∃ p', savedPredictions (run s events) !! 0 = Some p'
      ∧ MatchPrediction.embedded p' = [betXY'].
Proof.
  assert (renderedPredictions
            (run initial [SaveValueBet betXY; Render; SavePrediction predXY; Render]) ≠ [])
    as Hr by discriminate.
  destruct (propagation_after_last_save
              (run initial [SaveValueBet betXY; Render; SavePrediction predXY; Render])
              [SavePrediction (samplePrediction None "A" "B" None); SaveValueBet betXY']
              0 predXY eq_refl Hr)
    as (Hv & p' & Hp' & _ & Hemb & _).
  { repeat constructor. }
  split_and!; [reflexivity | exact Hr | exact Hv |].
  exists p'. split; [exact Hp' | exact Hemb].
Defined.

(** C1, as the specification words it, fails: a bet added before the
    prediction it resolves to is saved is in the Value-Bet Store, and is
    not embedded in that prediction, the view rendering after each call. *)
Lemma propagation_misses_earlier_bets :
  let s := run initial [SaveValueBet betXY; Render; SavePrediction predXY; Render] in
  betXY ∈ valueBets s
  ∧ predXY ∈ savedPredictions s
  ∧ resolves predXY betXY = true
  ∧ MatchPrediction.embedded predXY = []
  ∧ ¬ propagationComplete s.
Proof.
  assert (betXY ∈ valueBets
            (run initial [SaveValueBet betXY; Render; SavePrediction predXY; Render])) as Hb
    by by left.
  assert (predXY ∈ savedPredictions
            (run initial [SaveValueBet betXY; Render; SavePrediction predXY; Render]))
    as Hp by by left.
  split_and!; [done | done | reflexivity | reflexivity |].
  intros H. destruct (H betXY predXY Hb Hp eq_refl) as [Hin _].
  by apply elem_of_nil in Hin.
Qed.

(** Two adds of one key give two embedded bets of that key. *)
Example propagation_duplicates :
  let s := run initial [SavePrediction predXY; Render; SaveValueBet betXY; SaveValueBet betXY'] in
  savedPredictions s = [MatchPrediction.withValueBets predXY [betXY; betXY']]
  ∧ countKey betXY [betXY; betXY'] = 2.
Proof. by split. Qed.

(** A later [save] for the fixture drops the bets embedded so far. *)
Example save_drops_embedded :
  let s := run initial [SavePrediction predXY; Render; SaveValueBet betXY;
                        SavePrediction predXY] in
  valueBets s = [betXY] ∧ savedPredictions s = [predXY].
Proof. by split. Qed.

(** ** Further properties of the Prediction Store *)

Lemma findIndex_ext {A : Type} (f g : A → bool) (l : list A) :
  (∀ x, f x = g x) → findIndex f l = findIndex g l.
Proof.
  intros H. induction l as [|a l IH]; [done|]. simpl. by rewrite H, IH.
Qed.

Lemma findIndex_insert_hit {A : Type} (f : A → bool) (l : list A) (i : nat) (x : A) :
  findIndex f l = Some i → f x = true → findIndex f (<[i := x]> l) = Some i.
Proof.
  revert i. induction l as [|a l IH]; intros i; simpl; [discriminate|].
  destruct (f a) eqn:Ha.
  - intros [= <-] Hx. simpl. by rewrite Hx.
  - destruct (findIndex f l) as [k|] eqn:Hk; simpl; [|discriminate].
    intros [= <-] Hx. simpl. by rewrite Ha, (IH k eq_refl Hx).
Qed.

Lemma findIndex_app_miss {A : Type} (f : A → bool) (l : list A) (x : A) :
  findIndex f l = None → f x = true → findIndex f (l ++ [x]) = Some (length l).
Proof.
  intros Hl Hx. induction l as [|a l IH]; simpl in *; [by rewrite Hx|].
  destruct (f a); [discriminate|].
  destruct (findIndex f l); [discriminate|]. by rewrite IH.
Qed.

Lemma insert_last_app {A : Type} (l : list A) (x y : A) :
  <[length l := y]> (l ++ [x]) = l ++ [y].
Proof. induction l as [|a l IH]; [done|]. simpl. by rewrite IH. Qed.

Lemma sameFixture_fixture (p1 p2 q : MatchPrediction.t) :
  fixture p1 = fixture p2 → sameFixture p2 q = sameFixture p1 q.
Proof.
  unfold fixture, sameFixture. by intros [= -> ->].
Qed.

Lemma sameFixture_refl (p : MatchPrediction.t) : sameFixture p p = true.
Proof. by apply sameFixture_true. Qed.

Lemma handleSavePrediction_absorbs (p1 p2 : MatchPrediction.t) (s : View) :
  fixture p1 = fixture p2 →
  handleSavePrediction p2 (handleSavePrediction p1 s) = handleSavePrediction p2 s.
Proof.
  intros Hfix.
  assert (sameFixture p2 p1 = true) as H21 by by apply sameFixture_true.
  assert (findIndex (sameFixture p2) (savedPredictions s)
          = findIndex (sameFixture p1) (savedPredictions s)) as Hfind.
  { apply findIndex_ext. intros q. by apply sameFixture_fixture. }
  destruct (findIndex (sameFixture p1) (savedPredictions s)) as [i|] eqn:Hi.
  - rewrite (handleSavePrediction_found p1 s i Hi).
    rewrite (handleSavePrediction_found p2 s i) by by rewrite Hfind.
    erewrite handleSavePrediction_found.
    2:{ simpl. apply findIndex_insert_hit; [by rewrite Hfind | done]. }
    simpl. by rewrite list_insert_insert_eq.
  - rewrite (handleSavePrediction_fresh p1 s Hi).
    rewrite (handleSavePrediction_fresh p2 s) by by rewrite Hfind.
    erewrite handleSavePrediction_found.
    2:{ simpl. apply findIndex_app_miss; [by rewrite Hfind | done]. }
    simpl. by rewrite insert_last_app.
Qed.

(** X1. A save for a fixture makes an earlier save for the same
    [(home_team, away_team)] pair as if it had not been: the whole state,
    notifications included, is the one the later save alone gives. Saving
    the same prediction twice is the case of equal predictions. *)
Theorem save_absorbs_earlier_save (p1 p2 : MatchPrediction.t) (s : View) :
  fixture p1 = fixture p2 →
  handleSavePrediction p2 (handleSavePrediction p1 s) = handleSavePrediction p2 s
  ∧ handleSavePrediction p2 (handleSavePrediction p2 s) = handleSavePrediction p2 s.
Proof.
  intros Hfix. split; by apply handleSavePrediction_absorbs.
Qed.

(** A second prediction of X against Y, with an explicit id, over the first. *)
Lemma save_absorbs_earlier_save_witness :
  let p2 := samplePrediction (Some "m2") "X" "Y" (Some [betXY]) in
  let s := run initial [SavePrediction (samplePrediction None "A" "B" None)] in
  fixture predXY = fixture p2
  ∧ handleSavePrediction p2 (handleSavePrediction predXY s) = handleSavePrediction p2 s.
Proof.
  split; [reflexivity|].
  apply (save_absorbs_earlier_save predXY
           (samplePrediction (Some "m2") "X" "Y" (Some [betXY]))
           (run initial [SavePrediction (samplePrediction None "A" "B" None)]) eq_refl).
Defined.

Lemma run_snoc (s : View) (events : list Event) (e : Event) :
  run s (events ++ [e]) = step (run s events) e.
Proof. apply foldl_snoc. Qed.

Lemma run_cons (s : View) (events : list Event) (e : Event) :
  run s (e :: events) = run (step s e) events.
Proof. reflexivity. Qed.

Lemma fixtures_save (prediction : MatchPrediction.t) (s : View) :
  fixture <$> savedPredictions (handleSavePrediction prediction s)
  = if decide (fixture prediction ∈ fixture <$> savedPredictions s)
    then fixture <$> savedPredictions s
    else (fixture <$> savedPredictions s) ++ [fixture prediction].
Proof.
  destruct (findIndex (sameFixture prediction) (savedPredictions s)) as [i|] eqn:Hi.
  - rewrite (handleSavePrediction_found _ _ _ Hi). simpl.
    apply findIndex_sameFixture_Some in Hi as (old & Hold & Hfix & _).
    rewrite decide_True.
    + rewrite list_fmap_insert, list_insert_id; [done|].
      by rewrite list_lookup_fmap, Hold, <- Hfix.
    + apply list_elem_of_fmap. exists old. split; [done|].
      by eapply list_elem_of_lookup_2.
  - rewrite (handleSavePrediction_fresh _ _ Hi). simpl.
    rewrite decide_False; [by rewrite fmap_app|].
    intros (q & Hq & Hin)%list_elem_of_fmap.
    by eapply findIndex_sameFixture_None.
Qed.

Lemma fixtures_step_eq (s : View) (e : Event) :
  fixture <$> savedPredictions (step s e)
  = match e with
    | SavePrediction prediction =>
        if decide (fixture prediction ∈ fixture <$> savedPredictions s)
        then fixture <$> savedPredictions s
        else (fixture <$> savedPredictions s) ++ [fixture prediction]
    | _ => fixture <$> savedPredictions s
    end.
Proof.
  destruct e as [prediction|bet|updatedBet|]; simpl step.
  - apply fixtures_save.
  - apply fixtures_handleSaveValueBet.
  - apply fixtures_handleUpdateValueBet.
  - done.
Qed.

Lemma firstOccurrences_snoc (l : list (string * string)) (x : string * string) :
  firstOccurrences (l ++ [x])
  = if decide (x ∈ firstOccurrences l) then firstOccurrences l
    else firstOccurrences l ++ [x].
Proof.
  unfold firstOccurrences. rewrite reverse_snoc. simpl remove_dups.
  assert (x ∈ reverse l ↔ x ∈ reverse (remove_dups (reverse l))) as Hiff.
  { by rewrite !elem_of_reverse, elem_of_remove_dups, elem_of_reverse. }
  destruct (decide_rel elem_of x (reverse l)) as [Hin|Hnin].
  - rewrite decide_True; [done | by apply Hiff].
  - rewrite decide_False; [by rewrite reverse_cons | by rewrite <- Hiff].
Qed.

Lemma savedFixtures_snoc (events : list Event) (e : Event) :
  savedFixtures (events ++ [e])
  = savedFixtures events
    ++ match e with SavePrediction prediction => [fixture prediction] | _ => [] end.
Proof.
  induction events as [|e' events IH]; simpl.
  - by destruct e.
  - destruct e'; simpl; by rewrite IH.
Qed.

(** X2. The Prediction Store lists the fixtures in the order in which each
    was saved for the first time: a later save for a known fixture does not
    move its record, and bet events move nothing. *)
Theorem savedPredictions_order (events : list Event) :
  fixture <$> savedPredictions (run initial events)
  = firstOccurrences (savedFixtures events).
Proof.
  induction events as [|e events IH] using rev_ind; [done|].
  rewrite run_snoc, fixtures_step_eq, savedFixtures_snoc, IH.
  destruct e as [prediction| | |]; [|by rewrite app_nil_r..].
  by rewrite firstOccurrences_snoc.
Qed.

(** Saves for (A,B), (X,Y), (A,B) again: the order is (A,B), (X,Y). *)
Example savedPredictions_order_sample :
  firstOccurrences [("A", "B"); ("X", "Y"); ("A", "B")] = [("A", "B"); ("X", "Y")]
  ∧ fixture <$> savedPredictions
      (run initial [SavePrediction (samplePrediction None "A" "B" None);
                    SavePrediction predXY;
                    SavePrediction (samplePrediction (Some "again") "A" "B" None)])
    = [("A", "B"); ("X", "Y")].
Proof. by vm_compute. Qed.

Lemma toasts_step (s : View) (e : Event) :
  toasts s = replicate (length (savedPredictions s)) "Prediction saved successfully!" →
  toasts (step s e)
  = replicate (length (savedPredictions (step s e))) "Prediction saved successfully!".
Proof.
  intros Hs. destruct e as [prediction|bet|updatedBet|]; simpl step.
  - destruct (findIndex (sameFixture prediction) (savedPredictions s)) as [i|] eqn:Hi.
    + rewrite (handleSavePrediction_found _ _ _ Hi). simpl. by rewrite length_insert.
    + rewrite (handleSavePrediction_fresh _ _ Hi). simpl.
      rewrite length_app, Hs. simpl. by rewrite Nat.add_1_r, replicate_S_end.
  - simpl. destruct (0 <? _); [by rewrite length_fmap | done].
  - simpl. by rewrite length_fmap.
  - done.
Qed.

(** X3. From the empty stores, whatever the events, there is one "saved"
    notification for each record of the Prediction Store and no other
    notification: a save that replaces, and every bet event, is silent. *)
Theorem toasts_count_records (events : list Event) :
  toasts (run initial events)
  = replicate (length (savedPredictions (run initial events)))
      "Prediction saved successfully!".
Proof.
  induction events as [|e events IH] using rev_ind; [done|].
  rewrite run_snoc. by apply toasts_step.
Qed.

Lemma valueBets_handleSavePrediction (prediction : MatchPrediction.t) (s : View) :
  valueBets (handleSavePrediction prediction s) = valueBets s.
Proof.
  unfold handleSavePrediction. simpl. by destruct (findIndex _ _).
Qed.

Lemma betKeys_replaceBet (updatedBet : ValueBet.t) (bets : list ValueBet.t) :
  betKey <$> (replaceBet updatedBet <$> bets) = betKey <$> bets.
Proof.
  rewrite <- list_fmap_compose. apply list_fmap_ext. intros i bet _.
  apply replaceBet_key.
Qed.

(** X4. Along any trace from any state, the keys of the Value-Bet Store are
    the keys it had followed by the keys of the added bets, in the order of
    the calls: an update changes no key and no position, nothing is ever
    removed, and a save of a prediction does not touch the store. *)
Theorem valueBets_keys (events : list Event) (s : View) :
  betKey <$> valueBets (run s events)
  = (betKey <$> valueBets s) ++ (betKey <$> addedBets events).
Proof.
  revert s. induction events as [|e events IH]; intros s.
  - simpl. by rewrite app_nil_r.
  - rewrite run_cons, IH. destruct e as [prediction|bet|updatedBet|]; simpl.
    + by rewrite valueBets_handleSavePrediction.
    + by rewrite fmap_app, <- app_assoc.
    + by rewrite betKeys_replaceBet.
    + done.
Qed.

(** X5. Nothing is taken back: along any trace from any state the fixtures
    of the Prediction Store stay where they are, new ones coming after
    them, and the notifications sent stay sent. *)
Theorem stores_only_grow (events : list Event) (s : View) :
  (fixture <$> savedPredictions s) `prefix_of` (fixture <$> savedPredictions (run s events))
  ∧ toasts s `prefix_of` toasts (run s events)
  ∧ length (savedPredictions s) ≤ length (savedPredictions (run s events))
  ∧ length (savedPredictions (run s events))
    ≤ length (savedPredictions s) + length (savedFixtures events).
Proof.
  revert s. induction events as [|e events IH]; intros s.
  - simpl. split_and!; [done | done | lia | lia].
  - rewrite run_cons. destruct (IH (step s e)) as (Hf & Ht & Hl & Hu).
    assert ((fixture <$> savedPredictions s) `prefix_of` (fixture <$> savedPredictions (step s e))
            ∧ toasts s `prefix_of` toasts (step s e)
            ∧ length (savedPredictions s) ≤ length (savedPredictions (step s e))
            ∧ length (savedPredictions (step s e)) + length (savedFixtures events)
              ≤ length (savedPredictions s) + length (savedFixtures (e :: events)))
      as (Hf1 & Ht1 & Hl1 & Hu1).
    { rewrite fixtures_step_eq. destruct e as [prediction|bet|updatedBet|]; simpl step.
      - destruct (findIndex (sameFixture prediction) (savedPredictions s)) as [i|] eqn:Hi.
        + rewrite (handleSavePrediction_found _ _ _ Hi). simpl. rewrite length_insert.
          split_and!; [by destruct (decide _); [|apply prefix_app_r] | done | lia | lia].
        + rewrite (handleSavePrediction_fresh _ _ Hi). simpl. rewrite length_app. simpl.
          split_and!; [by destruct (decide _); [|apply prefix_app_r]
                      | by apply prefix_app_r | lia | lia].
      - simpl. split_and!; [done | done | |];
          destruct (0 <? _); rewrite ?length_fmap; lia.
      - simpl. rewrite length_fmap. split_and!; [done | done | lia | lia].
      - simpl. split_and!; [done | done | lia | lia]. }
    split_and!; [by etrans | by etrans | lia | lia].
Qed.

(** ** Further properties of the propagation *)

Lemma elem_of_insert_inv {A : Type} (l : list A) (i : nat) (x y : A) :
  y ∈ <[i := x]> l → y = x ∨ y ∈ l.
Proof.
  revert i. induction l as [|a l IH]; intros i; simpl; [by right|].
  destruct i as [|i]; simpl.
  - intros [->|H]%elem_of_cons; [by left | right; by right].
  - intros [->|H]%elem_of_cons; [right; by left|].
    destruct (IH i H) as [->|H']; [by left | right; by right].
Qed.

Lemma reattach_alt (updatedBet : ValueBet.t) (p : MatchPrediction.t) :
  reattach updatedBet p
  = match MatchPrediction.valueBets p with
    | None => p
    | Some bets => MatchPrediction.withValueBets p (replaceBet updatedBet <$> bets)
    end.
Proof.
  unfold reattach. destruct p as [m r c sc pa [bets|] h hh]; simpl; [|done].
  destruct (existsb (sameKey updatedBet) bets) eqn:He; [done|].
  unfold MatchPrediction.withValueBets. simpl.
  by rewrite replaceBet_absent by by apply existsb_sameKey_false.
Qed.

Lemma resolves_key (p : MatchPrediction.t) (b1 b2 : ValueBet.t) :
  betKey b1 = betKey b2 → resolves p b1 = resolves p b2.
Proof. unfold betKey, resolves. by intros [= -> _]. Qed.

Lemma resolves_attach (bet b : ValueBet.t) (p : MatchPrediction.t) :
  resolves (attach bet p) b = resolves p b.
Proof. apply resolves_sameButValueBets, sameButValueBets_attach. Qed.

Lemma resolves_reattach (updatedBet b : ValueBet.t) (p : MatchPrediction.t) :
  resolves (reattach updatedBet p) b = resolves p b.
Proof. apply resolves_sameButValueBets, sameButValueBets_reattach. Qed.

(** What the invariant of X6 says of one state. *)
Lemma embedded_step (s : View) (e : Event) :
  carriesNoBets e →
  (∀ p, p ∈ savedPredictions s →
     MatchPrediction.embedded p `sublist_of` valueBets s
     ∧ ∀ b, b ∈ MatchPrediction.embedded p → resolves p b = true) →
  ∀ p, p ∈ savedPredictions (step s e) →
     MatchPrediction.embedded p `sublist_of` valueBets (step s e)
     ∧ ∀ b, b ∈ MatchPrediction.embedded p → resolves p b = true.
Proof.
  intros He Hs p. destruct e as [q|bet|updatedBet|]; simpl step.
  - simpl in He. rewrite valueBets_handleSavePrediction.
    assert (p = q ∨ p ∈ savedPredictions s → MatchPrediction.embedded p `sublist_of` valueBets s
            ∧ ∀ b, b ∈ MatchPrediction.embedded p → resolves p b = true) as Hcases.
    { intros [->|Hp]; [|by apply Hs]. unfold MatchPrediction.embedded. rewrite He. simpl.
      split; [apply sublist_nil_l|]. intros b Hb. by apply elem_of_nil in Hb. }
    intros Hp. apply Hcases.
    destruct (findIndex (sameFixture q) (savedPredictions s)) as [i|] eqn:Hi.
    + rewrite (handleSavePrediction_found _ _ _ Hi) in Hp. simpl in Hp.
      by apply elem_of_insert_inv in Hp.
    + rewrite (handleSavePrediction_fresh _ _ Hi) in Hp. simpl in Hp.
      apply elem_of_app in Hp as [Hp|Hp%list_elem_of_singleton]; [by right | by left].
  - destruct (renderedPredictions s) as [|r rs] eqn:Hrendered.
    { rewrite savedPredictions_handleSaveValueBet_stale by done.
      intros Hp. destruct (Hs p Hp) as [Hsub Hres]. simpl valueBets.
      split; [by apply sublist_inserts_r | done]. }
    rewrite savedPredictions_handleSaveValueBet_rendered by by rewrite Hrendered.
    intros (p0 & -> & Hp0)%list_elem_of_fmap. destruct (Hs p0 Hp0) as [Hsub Hres].
    rewrite embedded_attach. simpl valueBets. split.
    + destruct (resolves p0 bet).
      * by apply sublist_app.
      * rewrite app_nil_r. by apply sublist_inserts_r.
    + intros b Hb. rewrite resolves_attach.
      apply elem_of_app in Hb as [Hb|Hb]; [by apply Hres|].
      destruct (resolves p0 bet) eqn:Hr; [|by apply elem_of_nil in Hb].
      by apply list_elem_of_singleton in Hb as ->.
  - simpl. intros (p0 & -> & Hp0)%list_elem_of_fmap. destruct (Hs p0 Hp0) as [Hsub Hres].
    rewrite embedded_reattach. split.
    + by apply fmap_sublist.
    + intros b (b0 & -> & Hb0)%list_elem_of_fmap. rewrite resolves_reattach.
      rewrite (resolves_key p0 _ b0) by apply replaceBet_key. by apply Hres.
  - simpl. apply Hs.
Qed.

(** X6. From the empty stores, when the saved predictions come without
    bets of their own (as the adapter's do), every prediction of the store
    embeds bets of the Value-Bet Store only, in the store's order, and only
    bets that resolve to its match: the handlers never embed a bet the
    store does not hold, nor one of another match. *)
Theorem embedded_bets_from_store (events : list Event) (p : MatchPrediction.t) :
  Forall carriesNoBets events →
  p ∈ savedPredictions (run initial events) →
  MatchPrediction.embedded p `sublist_of` valueBets (run initial events)
  ∧ ∀ b, b ∈ MatchPrediction.embedded p →
      resolves p b = true ∧ b ∈ valueBets (run initial events).
Proof.
  intros Hall Hp.
  assert (∀ q, q ∈ savedPredictions (run initial events) →
            MatchPrediction.embedded q `sublist_of` valueBets (run initial events)
            ∧ ∀ b, b ∈ MatchPrediction.embedded q → resolves q b = true) as Hinv.
  { clear p Hp. induction events as [|e events IH] using rev_ind.
    - intros q Hq. by apply elem_of_nil in Hq.
    - apply Forall_app in Hall as [Hall He]. apply Forall_cons in He as [He _].
      rewrite run_snoc. exact (embedded_step (run initial events) e He (IH Hall)). }
  destruct (Hinv p Hp) as [Hsub Hres]. split; [done|].
  intros b Hb. split; [by apply Hres|]. by eapply elem_of_sublist.
Qed.

(** A prediction, two bets for it, an update of their key, a bet of another
    match: the prediction embeds the two updated bets. *)
Lemma embedded_bets_from_store_witness :
  let other := sampleBet "A-B-2024-01-01T00:00:00.000Z" "btts" "first" in
  let events := [SavePrediction predXY; Render; SaveValueBet betXY; SaveValueBet other;
                 SaveValueBet betXY'; UpdateValueBet betXY''] in
  let p := MatchPrediction.withValueBets predXY [betXY''; betXY''] in
  savedPredictions (run initial events) = [p]
  ∧ valueBets (run initial events) = [betXY''; other; betXY'']
  ∧ MatchPrediction.embedded p `sublist_of` valueBets (run initial events).
Proof.
  split_and!; [reflexivity | reflexivity |].
  apply (embedded_bets_from_store
           [SavePrediction predXY; Render; SaveValueBet betXY;
            SaveValueBet (sampleBet "A-B-2024-01-01T00:00:00.000Z" "btts" "first");
            SaveValueBet betXY'; UpdateValueBet betXY'']
           (MatchPrediction.withValueBets predXY [betXY''; betXY''])).
  - repeat constructor.
  - by left.
Defined.

Lemma step_keeps_record (s : View) (e : Event) (i : nat) (p : MatchPrediction.t) :
  savedPredictions s !! i = Some p →
  savesFixtureOf p e = false →
  ∃ p', savedPredictions (step s e) !! i = Some p' ∧ sameButValueBets p p'.
Proof.
  intros Hp Hs. destruct e as [q|bet|updatedBet|]; simpl in *.
  - exists p. split; [|auto with frame].
    destruct (findIndex (sameFixture q) (savedPredictions s)) as [k|] eqn:Hk.
    + rewrite (handleSavePrediction_found _ _ _ Hk). simpl.
      apply findIndex_sameFixture_Some in Hk as (old & Hold & Hfix & _).
      rewrite list_lookup_insert_ne; [done|]. intros ->.
      apply sameFixture_false in Hs. congruence.
    + rewrite (handleSavePrediction_fresh _ _ Hk). simpl.
      by apply lookup_app_l_Some.
  - destruct (0 <? _).
    + exists (attach bet p). split; [|apply sameButValueBets_attach].
      by rewrite list_lookup_fmap, Hp.
    + exists p. auto with frame.
  - exists (reattach updatedBet p). split; [|apply sameButValueBets_reattach].
    by rewrite list_lookup_fmap, Hp.
  - exists p. auto with frame.
Qed.

(** X7. The last save for a fixture wins: after [save(q)], whatever events
    follow, bet updates included, as long as none saves a prediction for
    the [(home_team, away_team)] pair of [q], the record stays where the
    save put it and is [q] in every field but [valueBets]. *)
Theorem last_save_wins (q : MatchPrediction.t) (s : View) (events : list Event) :
  Forall (λ e, savesFixtureOf q e = false) events →
  ∃ i p,
    savedPredictions (handleSavePrediction q s) !! i = Some q
    ∧ savedPredictions (run (handleSavePrediction q s) events) !! i = Some p
    ∧ sameButValueBets q p.
Proof.
  intros Hall.
  assert (∃ i, savedPredictions (handleSavePrediction q s) !! i = Some q) as [i Hi].
  { apply list_elem_of_lookup.
    destruct (findIndex (sameFixture q) (savedPredictions s)) as [k|] eqn:Hk.
    - rewrite (handleSavePrediction_found _ _ _ Hk). simpl.
      apply findIndex_Some in Hk as (old & Hold & _).
      apply list_elem_of_insert. by eapply lookup_lt_Some.
    - rewrite (handleSavePrediction_fresh _ _ Hk). simpl.
      apply elem_of_app. right. by apply list_elem_of_singleton. }
  exists i. revert Hi. generalize (handleSavePrediction q s) as s0.
  assert (∀ events s0 p0, sameButValueBets q p0 →
            Forall (λ e, savesFixtureOf q e = false) events →
            savedPredictions s0 !! i = Some p0 →
            ∃ p, savedPredictions (run s0 events) !! i = Some p ∧ sameButValueBets q p)
    as Hgen.
  { clear. intros events. induction events as [|e events IH]; intros s0 p0 Hq Hall Hp0.
    - by exists p0.
    - apply Forall_cons in Hall as [He Hall]. rewrite run_cons.
      destruct (step_keeps_record s0 e i p0 Hp0) as (p1 & Hp1 & Hsame).
      { destruct e as [r| | |]; simpl in *; try done.
        by rewrite (sameFixture_sameButValueBets q p0 r Hq). }
      apply (IH (step s0 e) p1); [by eapply sameButValueBets_trans | done | done]. }
  intros s0 Hi. destruct (Hgen events s0 q (sameButValueBets_refl q) Hall Hi) as (p & Hp & Hsame).
  by exists p.
Qed.

(** X against Y is saved, then a bet for it is added and updated and
    another fixture is saved. *)
Lemma last_save_wins_witness :
  ∃ i p,
    savedPredictions (handleSavePrediction predXY initial) !! i = Some predXY
    ∧ savedPredictions
        (run (handleSavePrediction predXY initial)
           [SaveValueBet betXY; UpdateValueBet betXY';
            SavePrediction (samplePrediction None "A" "B" None)]) !! i = Some p
    ∧ sameButValueBets predXY p.
Proof.
  apply (last_save_wins predXY initial
           [SaveValueBet betXY; UpdateValueBet betXY';
            SavePrediction (samplePrediction None "A" "B" None)]).
  repeat constructor.
Defined.

(** ** The active prediction *)

Lemma getActivePrediction_last (s : View) :
  getActivePrediction s = last (savedPredictions s).
Proof.
  unfold getActivePrediction. rewrite last_lookup.
  destruct (savedPredictions s) as [|p l]; [done|]. simpl length.
  by rewrite Nat.sub_1_r.
Qed.

Lemma last_insert_other {A : Type} (l : list A) (i : nat) (x : A) :
  S i < length l → last (<[i := x]> l) = last l.
Proof.
  intros Hi. rewrite !last_lookup, length_insert.
  apply list_lookup_insert_ne. lia.
Qed.

Lemma last_insert_last {A : Type} (l : list A) (i : nat) (x : A) :
  S i = length l → last (<[i := x]> l) = Some x.
Proof.
  intros Hi. rewrite last_lookup, length_insert, <- Hi. simpl.
  apply list_lookup_insert_eq. lia.
Qed.

(** X8. After a save the active prediction is never null. It is the saved
    prediction when the fixture is new; it is the one it was when the save
    replaced the record of another fixture than the active one's; and in a
    store with one record per fixture it is the saved prediction when the
    save is for the active fixture. *)
Theorem getActivePrediction_after_save (prediction : MatchPrediction.t) (s : View) :
  let s' := handleSavePrediction prediction s in
  is_Some (getActivePrediction s')
  ∧ ((∀ q, q ∈ savedPredictions s → fixture q ≠ fixture prediction) →
       getActivePrediction s' = Some prediction)
  ∧ (∀ active, getActivePrediction s = Some active →
       fixture active ≠ fixture prediction →
       (∃ q, q ∈ savedPredictions s ∧ fixture q = fixture prediction) →
       getActivePrediction s' = Some active)
  ∧ (∀ active, getActivePrediction s = Some active →
       fixture active = fixture prediction →
       uniqueFixtures (savedPredictions s) →
       getActivePrediction s' = Some prediction).
Proof.
  intros s'. subst s'. rewrite !getActivePrediction_last.
  destruct (findIndex (sameFixture prediction) (savedPredictions s)) as [i|] eqn:Hi.
  - rewrite (handleSavePrediction_found _ _ _ Hi). simpl.
    apply findIndex_sameFixture_Some in Hi as (old & Hold & Hfix & Hfirst).
    pose proof (lookup_lt_Some _ _ _ Hold) as Hlt.
    split_and!.
    + rewrite last_lookup, length_insert. apply lookup_lt_is_Some.
      rewrite length_insert. lia.
    + intros Hnone. exfalso. eapply Hnone; [|done]. by eapply list_elem_of_lookup_2.
    + intros active Hact Hne _. rewrite last_insert_other; [done|].
      destruct (decide (S i = length (savedPredictions s))) as [Heq|]; [|lia].
      exfalso. rewrite last_lookup, <- Heq in Hact. simpl in Hact. congruence.
    + intros active Hact Heq Huniq. apply last_insert_last.
      rewrite last_lookup in Hact.
      pose proof (Huniq _ _ _ _ Hold Hact) as Hidx.
      rewrite Hidx by congruence. lia.
  - rewrite (handleSavePrediction_fresh _ _ Hi). simpl. rewrite last_snoc.
    split_and!; [by eexists | done | |].
    + intros active Hact Hne (q & Hq & Hfix). exfalso.
      by eapply findIndex_sameFixture_None.
    + done.
Qed.

(** A save for (A,B), which is stored before the active (X,Y), leaves (X,Y)
    active. *)
Example getActivePrediction_not_bumped :
  let s := run initial [SavePrediction (samplePrediction None "A" "B" None);
                        SavePrediction predXY] in
  getActivePrediction s = Some predXY
  ∧ getActivePrediction
      (handleSavePrediction (samplePrediction (Some "again") "A" "B" None) s)
    = Some predXY.
Proof. by vm_compute. Qed.

(** X9. The bets of the active prediction follow the bet events: an added
    bet is appended to them exactly when the Prediction Store of the last
    render was not empty and the bet resolves to the active prediction, and
    an update replaces among them the bets of its key. With an empty
    Prediction Store they are empty before and after. *)
Theorem activePredictionBets_after_bet_event (bet : ValueBet.t) (s : View) :
  activePredictionBets (handleSaveValueBet bet s)
  = activePredictionBets s
    ++ match renderedPredictions s, getActivePrediction s with
       | _ :: _, Some active => if resolves active bet then [bet] else []
       | _, _ => []
       end
  ∧ activePredictionBets (handleUpdateValueBet bet s)
    = replaceBet bet <$> activePredictionBets s
  ∧ (savedPredictions s = [] →
       activePredictionBets (handleSaveValueBet bet s) = []
       ∧ activePredictionBets (handleUpdateValueBet bet s) = []).
Proof.
  unfold activePredictionBets. rewrite !getActivePrediction_last.
  split_and!.
  - destruct (renderedPredictions s) as [|r rs] eqn:Hr.
    + rewrite savedPredictions_handleSaveValueBet_stale by done.
      rewrite app_nil_r. done.
    + rewrite savedPredictions_handleSaveValueBet_rendered by by rewrite Hr.
      rewrite fmap_last.
      destruct (last (savedPredictions s)) as [active|]; simpl; [|done].
      apply embedded_attach.
  - simpl savedPredictions. rewrite fmap_last.
    destruct (last (savedPredictions s)) as [active|]; simpl; [|done].
    apply embedded_reattach.
  - intros Hs. simpl savedPredictions. rewrite Hs. by destruct (0 <? _).
Qed.

(** The bet is added in the batch of the save, and after a render. *)
Example activePredictionBets_batch :
  activePredictionBets (run initial [SavePrediction predXY; SaveValueBet betXY]) = []
  ∧ activePredictionBets (run initial [SavePrediction predXY; Render; SaveValueBet betXY])
    = [betXY].
Proof. by split. Qed.

(** ** How the bet handlers compose *)

Lemma replaceBet_idemp (updatedBet bet : ValueBet.t) :
  replaceBet updatedBet (replaceBet updatedBet bet) = replaceBet updatedBet bet.
Proof.
  unfold replaceBet at 2 3. destruct (sameKey updatedBet bet) eqn:H.
  - apply replaceBet_same. reflexivity.
  - unfold replaceBet. by rewrite H.
Qed.

Lemma reattach_idemp (updatedBet : ValueBet.t) (p : MatchPrediction.t) :
  reattach updatedBet (reattach updatedBet p) = reattach updatedBet p.
Proof.
  rewrite (reattach_alt updatedBet p).
  destruct (MatchPrediction.valueBets p) as [bets|] eqn:Hp.
  - rewrite reattach_alt. simpl. unfold MatchPrediction.withValueBets. simpl.
    f_equal. f_equal. rewrite <- list_fmap_compose. apply list_fmap_ext.
    intros i bet _. apply replaceBet_idemp.
  - by rewrite reattach_alt, Hp.
Qed.

(** X10. Updating with the same bet twice is updating once: the whole
    state after the second update is the state after the first. *)
Theorem handleUpdateValueBet_idempotent (updatedBet : ValueBet.t) (s : View) :
  handleUpdateValueBet updatedBet (handleUpdateValueBet updatedBet s)
  = handleUpdateValueBet updatedBet s.
Proof.
  unfold handleUpdateValueBet. simpl. f_equal.
  - rewrite <- list_fmap_compose. apply list_fmap_ext. intros i p _. apply reattach_idemp.
  - rewrite <- list_fmap_compose. apply list_fmap_ext. intros i b _. apply replaceBet_idemp.
Qed.

(** X11. An update for a key that no top-level bet and no embedded bet has
    changes nothing at all: it does not insert the bet anywhere. *)
Theorem handleUpdateValueBet_unknown_key (updatedBet : ValueBet.t) (s : View) :
  (∀ bet, bet ∈ valueBets s → betKey bet ≠ betKey updatedBet) →
  ¬ keyEmbedded updatedBet s →
  handleUpdateValueBet updatedBet s = s.
Proof.
  intros Htop Hemb. destruct s as [preds bets ts]. unfold handleUpdateValueBet. simpl in *.
  f_equal.
  - rewrite <- (list_fmap_id preds) at 2. apply list_fmap_ext. intros i p Hp.
    rewrite reattach_alt. destruct p as [m r c sc pa [vb|] h hh]; simpl; [|done].
    unfold MatchPrediction.withValueBets. simpl. f_equal. f_equal.
    apply replaceBet_absent. intros bet Hbet Hkey. apply Hemb.
    eexists _, bet. split_and!; [by eapply list_elem_of_lookup_2 | done | done].
  - by apply replaceBet_absent.
Qed.

(** An update for a pattern type that was never added. *)
Lemma handleUpdateValueBet_unknown_key_witness :
  let s := run initial [SavePrediction predXY; Render; SaveValueBet betXY] in
  let stranger := sampleBet "X-Y-2024-01-01T00:00:00.000Z" "btts" "first" in
  handleUpdateValueBet stranger s = s.
Proof.
  apply (handleUpdateValueBet_unknown_key
           (sampleBet "X-Y-2024-01-01T00:00:00.000Z" "btts" "first")
           (run initial [SavePrediction predXY; Render; SaveValueBet betXY])).
  - intros bet [->|Hbet%elem_of_nil]%elem_of_cons; [|done]. discriminate.
  - intros (p & bet & [->|Hp%elem_of_nil]%elem_of_cons & Hbet & Hkey); [|done].
    apply elem_of_cons in Hbet as [->|Hbet%elem_of_nil]; [|done]. discriminate Hkey.
Defined.

Lemma replaceBet_comm (u1 u2 bet : ValueBet.t) :
  betKey u1 ≠ betKey u2 →
  replaceBet u1 (replaceBet u2 bet) = replaceBet u2 (replaceBet u1 bet).
Proof.
  intros Hne.
  destruct (decide (betKey bet = betKey u1)) as [H1|H1];
    destruct (decide (betKey bet = betKey u2)) as [H2|H2].
  - congruence.
  - rewrite (replaceBet_other u2 bet H2), (replaceBet_same u1 bet H1).
    by rewrite replaceBet_other.
  - rewrite (replaceBet_other u1 bet H1), (replaceBet_same u2 bet H2).
    by rewrite replaceBet_other by congruence.
  - by rewrite (replaceBet_other u2 bet H2), (replaceBet_other u1 bet H1),
       (replaceBet_other u2 bet H2).
Qed.

Lemma reattach_comm (u1 u2 : ValueBet.t) (p : MatchPrediction.t) :
  betKey u1 ≠ betKey u2 →
  reattach u1 (reattach u2 p) = reattach u2 (reattach u1 p).
Proof.
  intros Hne. rewrite (reattach_alt u2 p), (reattach_alt u1 p).
  destruct (MatchPrediction.valueBets p) as [bets|] eqn:Hp.
  - rewrite !reattach_alt. simpl. unfold MatchPrediction.withValueBets. simpl.
    f_equal. f_equal. rewrite <- !list_fmap_compose. apply list_fmap_ext.
    intros i bet _. by apply replaceBet_comm.
  - by rewrite !reattach_alt, Hp.
Qed.

(** X12. Updates of two different keys commute: either order gives the
    same state. *)
Theorem handleUpdateValueBet_commute (u1 u2 : ValueBet.t) (s : View) :
  betKey u1 ≠ betKey u2 →
  handleUpdateValueBet u1 (handleUpdateValueBet u2 s)
  = handleUpdateValueBet u2 (handleUpdateValueBet u1 s).
Proof.
  intros Hne. unfold handleUpdateValueBet. simpl. f_equal.
  - rewrite <- !list_fmap_compose. apply list_fmap_ext. intros i p _.
    by apply reattach_comm.
  - rewrite <- !list_fmap_compose. apply list_fmap_ext. intros i b _.
    by apply replaceBet_comm.
Qed.

(** Updates of the over-2.5 bet and of a both-teams-to-score bet. *)
Lemma handleUpdateValueBet_commute_witness :
  let btts := sampleBet "X-Y-2024-01-01T00:00:00.000Z" "btts" "first" in
  let btts' := sampleBet "X-Y-2024-01-01T00:00:00.000Z" "btts" "second" in
  let s := run initial [SavePrediction predXY; Render; SaveValueBet betXY;
                        SaveValueBet btts] in
  handleUpdateValueBet betXY' (handleUpdateValueBet btts' s)
  = handleUpdateValueBet btts' (handleUpdateValueBet betXY' s).
Proof.
  apply (handleUpdateValueBet_commute betXY'
           (sampleBet "X-Y-2024-01-01T00:00:00.000Z" "btts" "second")).
  discriminate.
Defined.

Lemma attach_reattach_comm (bet u : ValueBet.t) (p : MatchPrediction.t) :
  betKey bet ≠ betKey u →
  attach bet (reattach u p) = reattach u (attach bet p).
Proof.
  intros Hne. unfold attach at 1. rewrite resolves_reattach, embedded_reattach.
  unfold attach. destruct (resolves p bet); [|done].
  rewrite (reattach_alt u (MatchPrediction.withValueBets _ _)). simpl.
  rewrite fmap_app. simpl. rewrite (replaceBet_other u bet Hne).
  rewrite reattach_alt. by destruct (MatchPrediction.valueBets p).
Qed.

(** X13. Adding a bet and updating a bet of another key commute: either
    order gives the same state. *)
Theorem add_update_commute (bet u : ValueBet.t) (s : View) :
  betKey bet ≠ betKey u →
  handleSaveValueBet bet (handleUpdateValueBet u s)
  = handleUpdateValueBet u (handleSaveValueBet bet s).
Proof.
  intros Hne.
  unfold handleSaveValueBet, handleUpdateValueBet. simpl. f_equal.
  - destruct (0 <? _); [|done].
    rewrite <- !list_fmap_compose. apply list_fmap_ext. intros i p _.
    by apply attach_reattach_comm.
  - rewrite fmap_app. simpl. by rewrite (replaceBet_other u bet Hne).
Qed.

(** A both-teams-to-score bet is added, the over-2.5 bet is updated. *)
Lemma add_update_commute_witness :
  let btts := sampleBet "X-Y-2024-01-01T00:00:00.000Z" "btts" "first" in
  let s := run initial [SavePrediction predXY; Render; SaveValueBet betXY] in
  handleSaveValueBet btts (handleUpdateValueBet betXY' s)
  = handleUpdateValueBet betXY' (handleSaveValueBet btts s).
Proof.
  apply (add_update_commute
           (sampleBet "X-Y-2024-01-01T00:00:00.000Z" "btts" "first") betXY').
  discriminate.
Defined.

(** X14. A bet that resolves to no stored prediction is added to the
    Value-Bet Store and leaves the Prediction Store exactly as it is. *)
Theorem handleSaveValueBet_no_owner (bet : ValueBet.t) (s : View) :
  (∀ p, p ∈ savedPredictions s → resolves p bet = false) →
  handleSaveValueBet bet s
  = {| savedPredictions := savedPredictions s;
       valueBets := valueBets s ++ [bet];
       toasts := toasts s;
       renderedPredictions := renderedPredictions s |}.
Proof.
  intros Hnone. unfold handleSaveValueBet. f_equal.
  destruct (0 <? _); [|done].
  rewrite <- (list_fmap_id (savedPredictions s)) at 2. apply list_fmap_ext.
  intros i p Hp. unfold attach. rewrite Hnone; [done|].
  by eapply list_elem_of_lookup_2.
Qed.

(** A bet for A against B when X against Y alone is stored. *)
Lemma handleSaveValueBet_no_owner_witness :
  let stranger := sampleBet "A-B-2024-01-01T00:00:00.000Z" "btts" "first" in
  handleSaveValueBet stranger (render (handleSavePrediction predXY initial))
  = {| savedPredictions := [predXY];
       valueBets := [stranger];
       toasts := ["Prediction saved successfully!"];
       renderedPredictions := [predXY] |}.
Proof.
  apply (handleSaveValueBet_no_owner
           (sampleBet "A-B-2024-01-01T00:00:00.000Z" "btts" "first")
           (render (handleSavePrediction predXY initial))).
  intros p [->|Hp%elem_of_nil]%elem_of_cons; [reflexivity | done].
Defined.

(** ** The adapter, the resolver and the store together *)

Lemma append_assoc (a b c : string) : (a +:+ b) +:+ c = a +:+ b +:+ c.
Proof.
  induction a as [|x a IH]; [reflexivity|].
  change (String x ((a +:+ b) +:+ c) = String x (a +:+ b +:+ c)). by f_equal.
Qed.

Lemma length_append (a b : string) :
  String.length (a +:+ b) = String.length a + String.length b.
Proof.
  induction a as [|x a IH]; [reflexivity|].
  change (S (String.length (a +:+ b)) = S (String.length a + String.length b)).
  by f_equal.
Qed.

Lemma generateAdvancedPrediction_Some
    (runPrediction : string → string → list Match.t → AdvancedPrediction.t)
    (currentMatches : list Match.t) (now homeTeam awayTeam : string)
    (prediction : MatchPrediction.t) :
  generateAdvancedPrediction runPrediction currentMatches now homeTeam awayTeam
  = Some prediction →
  Match.id (MatchPrediction.match_ prediction) = None
  ∧ Match.date (MatchPrediction.match_ prediction) = now
  ∧ fixture prediction = (homeTeam, awayTeam)
  ∧ MatchPrediction.valueBets prediction = None.
Proof.
  unfold generateAdvancedPrediction.
  destruct (falsy homeTeam || falsy awayTeam); [discriminate|].
  by intros [= <-].
Qed.

Lemma resolves_without_id (p : MatchPrediction.t) (b : ValueBet.t) :
  Match.id (MatchPrediction.match_ p) = None →
  resolves p b = true ↔ ValueBet.matchId b = fallbackKey (MatchPrediction.match_ p).
Proof.
  intros Hid. unfold resolves, idEquals. rewrite Hid. simpl orb.
  rewrite String.eqb_eq. split; congruence.
Qed.

(** X15. A prediction the adapter returns has no explicit match id and no
    bets, so a bet resolves to it exactly when its [matchId] is
    ["{homeTeam}-{awayTeam}-{time of the call}"]. *)
Theorem adapter_prediction_resolves
    (runPrediction : string → string → list Match.t → AdvancedPrediction.t)
    (currentMatches : list Match.t) (now homeTeam awayTeam : string)
    (prediction : MatchPrediction.t) :
  generateAdvancedPrediction runPrediction currentMatches now homeTeam awayTeam
  = Some prediction →
  MatchPrediction.valueBets prediction = None
  ∧ fixture prediction = (homeTeam, awayTeam)
  ∧ ∀ bet, resolves prediction bet = true
           ↔ ValueBet.matchId bet = homeTeam +:+ "-" +:+ awayTeam +:+ "-" +:+ now.
Proof.
  intros (Hid & Hdate & Hfix & Hvb)%generateAdvancedPrediction_Some.
  split_and!; [done..|]. intros bet. rewrite (resolves_without_id _ _ Hid).
  unfold fallbackKey. rewrite Hdate. unfold fixture in Hfix.
  by injection Hfix as -> ->.
Qed.

(** The adapter on X against Y at the sample date, and the sample bet. *)
Lemma adapter_prediction_resolves_witness :
  ∃ prediction,
    generateAdvancedPrediction (λ _ _ _, sampleOutput JsUndefined) []
      "2024-01-01T00:00:00.000Z" "X" "Y" = Some prediction
    ∧ resolves prediction betXY = true.
Proof.
  eexists. split; [reflexivity|].
  apply (adapter_prediction_resolves (λ _ _ _, sampleOutput JsUndefined) []
           "2024-01-01T00:00:00.000Z" "X" "Y" _ eq_refl).
  reflexivity.
Defined.

(** X16. Predicting a fixture again at another time, with whatever model,
    replaces the record of the first prediction (the state is the one the
    second save alone gives), and no bet that resolved to the first
    prediction resolves to the second: the bets keyed to the first date are
    left without a prediction. *)
Theorem adapter_prediction_again
    (run1 run2 : string → string → list Match.t → AdvancedPrediction.t)
    (matches1 matches2 : list Match.t) (now1 now2 homeTeam awayTeam : string)
    (p1 p2 : MatchPrediction.t) (s : View) :
  generateAdvancedPrediction run1 matches1 now1 homeTeam awayTeam = Some p1 →
  generateAdvancedPrediction run2 matches2 now2 homeTeam awayTeam = Some p2 →
  now1 ≠ now2 →
  handleSavePrediction p2 (handleSavePrediction p1 s) = handleSavePrediction p2 s
  ∧ MatchPrediction.embedded p2 = []
  ∧ ∀ bet, resolves p1 bet = true → resolves p2 bet = false.
Proof.
  intros (Hid1 & Hd1 & Hf1 & _)%generateAdvancedPrediction_Some
         (Hid2 & Hd2 & Hf2 & Hvb2)%generateAdvancedPrediction_Some Hne.
  split_and!.
  - apply handleSavePrediction_absorbs. congruence.
  - unfold MatchPrediction.embedded. by rewrite Hvb2.
  - intros bet H1%(resolves_without_id _ _ Hid1).
    destruct (resolves p2 bet) eqn:H2; [|done]. exfalso.
    apply (resolves_without_id _ _ Hid2) in H2. rewrite H1 in H2.
    unfold fallbackKey, fixture in *. rewrite Hd1, Hd2 in H2.
    injection Hf1 as Hh1 Ha1. injection Hf2 as Hh2 Ha2.
    rewrite Hh1, Ha1, Hh2, Ha2 in H2.
    by repeat apply String.app_inj in H2.
Qed.

(** X against Y predicted on the first and on the second of January. *)
Lemma adapter_prediction_again_witness :
  let adapt now := generateAdvancedPrediction (λ _ _ _, sampleOutput JsNull) [] now "X" "Y" in
  ∃ p1 p2,
    adapt "2024-01-01T00:00:00.000Z" = Some p1
    ∧ adapt "2024-01-02T00:00:00.000Z" = Some p2
    ∧ resolves p1 betXY = true
    ∧ resolves p2 betXY = false.
Proof.
  eexists _, _. split_and!; [reflexivity | reflexivity | reflexivity |].
  apply (adapter_prediction_again
           (λ _ _ _, sampleOutput JsNull) (λ _ _ _, sampleOutput JsNull) [] []
           "2024-01-01T00:00:00.000Z" "2024-01-02T00:00:00.000Z" "X" "Y"
           _ _ initial eq_refl eq_refl); [discriminate | reflexivity].
Defined.

(** X17. The composite key does not tell where the home name ends: the
    fixture of ["x-y"] against [z] and the fixture of [x] against ["y-z"],
    on one date and without explicit ids, are two fixtures, so that the
    store holds both, and the same bets resolve to both: when the store
    holds the two and the view has rendered with a non-empty store, a bet
    that resolves to one is attached to both. *)
Theorem fallbackKey_collision (p1 p2 : MatchPrediction.t) (y : string) :
  Match.id (MatchPrediction.match_ p1) = None →
  Match.id (MatchPrediction.match_ p2) = None →
  Match.date (MatchPrediction.match_ p1) = Match.date (MatchPrediction.match_ p2) →
  Match.home_team (MatchPrediction.match_ p1)
  = Match.home_team (MatchPrediction.match_ p2) +:+ "-" +:+ y →
  Match.away_team (MatchPrediction.match_ p2)
  = y +:+ "-" +:+ Match.away_team (MatchPrediction.match_ p1) →
  fixture p1 ≠ fixture p2
  ∧ (∀ bet, resolves p1 bet = resolves p2 bet)
  ∧ ∀ bet s, savedPredictions s = [p1; p2] → renderedPredictions s ≠ [] →
      resolves p1 bet = true →
      savedPredictions (handleSaveValueBet bet s)
      = [MatchPrediction.withValueBets p1 (MatchPrediction.embedded p1 ++ [bet]);
         MatchPrediction.withValueBets p2 (MatchPrediction.embedded p2 ++ [bet])].
Proof.
  intros Hid1 Hid2 Hdate Hhome Haway.
  assert (fallbackKey (MatchPrediction.match_ p1) = fallbackKey (MatchPrediction.match_ p2))
    as Hkey.
  { unfold fallbackKey. rewrite Hhome, Haway, Hdate. by rewrite !append_assoc. }
  assert (∀ bet, resolves p1 bet = resolves p2 bet) as Hres.
  { intros bet. unfold resolves, idEquals. by rewrite Hid1, Hid2, Hkey. }
  split_and!; [|done|].
  - unfold fixture. intros [= Hh _]. rewrite Hhome in Hh.
    apply (f_equal String.length) in Hh. rewrite length_append in Hh. simpl in Hh. lia.
  - intros bet s Hs Hr H1.
    rewrite (savedPredictions_handleSaveValueBet_rendered bet s Hr), Hs. simpl.
    unfold attach. by rewrite <- Hres, H1.
Qed.

(** "Real-Madrid" against "B" and "Real" against "Madrid-B". *)
Lemma fallbackKey_collision_witness :
  let p1 := samplePrediction None "Real-Madrid" "B" None in
  let p2 := samplePrediction None "Real" "Madrid-B" None in
  let bet := sampleBet "Real-Madrid-B-2024-01-01T00:00:00.000Z" "btts" "first" in
  savedPredictions
    (run initial [SavePrediction p1; SavePrediction p2; Render; SaveValueBet bet])
  = [MatchPrediction.withValueBets p1 [bet]; MatchPrediction.withValueBets p2 [bet]]
  ∧ fixture p1 ≠ fixture p2.
Proof.
  destruct (fallbackKey_collision
              (samplePrediction None "Real-Madrid" "B" None)
              (samplePrediction None "Real" "Madrid-B" None)
              "Madrid" eq_refl eq_refl eq_refl eq_refl eq_refl) as (Hne & _ & _).
  split; [reflexivity | exact Hne].
Defined.
